(** * AuralForge: the prompt-to-media pipeline of [src/App.jsx]

    A shallow embedding of the pure and the effectful parts of the
    application: the prompt hasher, the parameter mapper, the WAV
    encoder, the master gain envelope, the word-wrap routine and the
    merge driver, with the properties stated about them.

    Conventions.
    - A JavaScript string is the list of its UTF-16 code units
      ([charCodeAt] is list lookup, [+] is [++]).
    - Integer-valued JavaScript numbers are [Z]; the 32-bit and 16-bit
      conversions ([<<], [|], the [DataView] setters) have their
      wrap-around written out.
    - An [ArrayBuffer] is a list of bytes, each a [Z] in [0, 256).
    - Audio samples are finite [Float32Array] values.  They are
      modelled as rationals: a float32 has a 24-bit significand, so its
      products with [0x8000] and [0x7fff] are exact in binary64, and
      the encoder's arithmetic on them is the rational arithmetic.
    - The LFO rate, where binary64 rounding does occur, is computed in
      binary64 ([PrimFloat]); so are the decoded duration and the timer
      delays of the merge driver and the timestamps of the frame
      loops. *)

From Stdlib Require Import ZArith QArith Qround Qabs Qminmax Lia Lqa.
From Stdlib Require Import String Ascii DecimalString.
From Stdlib Require Import Floats.PrimFloat Floats.FloatOps Floats.SpecFloat.
From Stdlib Require Import Numbers.Cyclic.Int63.Uint63.
From stdpp Require Import base tactics option list.

Set Warnings "-inexact-float".
Local Open Scope Z_scope.

(** ** JavaScript strings *)

(** A string is its sequence of UTF-16 code units. *)
Definition jsstring := list Z.

Definition charCode (c : ascii) : Z := Z.of_N (N_of_ascii c).

(** The code units of an ASCII literal of the source. *)
Definition lit (s : string) : jsstring := map charCode (list_ascii_of_string s).

(** ** Prompt hasher *)

Module Hash.

(** [ToInt32]: the signed 32-bit value congruent to [x] modulo [2^32]. *)
Definition toInt32 (x : Z) : Z := (x + 2^31) mod 2^32 - 2^31.

(** [x << k] on 32-bit integers. *)
Definition shl (x k : Z) : Z := toInt32 (Z.shiftl (toInt32 x) k).

(** [x | y] on 32-bit integers. *)
Definition bor (x y : Z) : Z := toInt32 (Z.lor (toInt32 x) (toInt32 y)).

(** One turn of the loop body:
    [hash = (hash << 5) - hash + str.charCodeAt(i); hash |= 0]. *)
Definition step (hash code : Z) : Z :=
  let hash := shl hash 5 - hash + code in
  bor hash 0.

(** [hashString(str)]. *)
Definition hashString (str : jsstring) : Z :=
  let hash := fold_left step str 0 in
  Z.abs hash.

(** The fold the specification describes: [acc = acc*31 + code],
    wrapped to 32-bit two's complement at each step. *)
Definition spec_step (acc code : Z) : Z := toInt32 (acc * 31 + code).

Definition spec_hash (str : jsstring) : Z := Z.abs (fold_left spec_step str 0).

End Hash.

(** ** Parameter mapper (audio part) *)

Module Params.
Import Hash.

(** [%] of JavaScript is the remainder that takes the sign of the
    dividend. *)
Definition jsrem (a b : Z) : Z := Z.rem a b.

(** [const baseFreq = 110 + (hashString(prompt) % 220)]. *)
Definition baseFreq (prompt : jsstring) : Z :=
  110 + jsrem (hashString prompt) 220.

(** [const detuneCents = (hashString(prompt + 'detune') % 200) - 100]. *)
Definition detuneCents (prompt : jsstring) : Z :=
  jsrem (hashString (prompt ++ lit "detune")) 200 - 100.

(** An integer-valued number below [2^63] as a binary64. *)
Definition float_of_Z (z : Z) : float := PrimFloat.of_uint63 (Uint63.of_Z z).

(** [0.1 + k / 100] in binary64. *)
Definition lfoOfIndex (k : Z) : float :=
  (0.1 + float_of_Z k / 100)%float.

(** [lfo.frequency.value = 0.1 + (hashString(prompt + 'lfo') % 30) / 100]. *)
Definition lfoRate (prompt : jsstring) : float :=
  lfoOfIndex (jsrem (hashString (prompt ++ lit "lfo")) 30).

(** The same rate over the rationals. *)
Definition lfoRateQ (prompt : jsstring) : Q :=
  (1 # 10) + inject_Z (jsrem (hashString (prompt ++ lit "lfo")) 30) / 100.

End Params.

(** ** Word wrap *)

Module Wrap.

(** The separator [' ']. *)
Definition space : Z := 32.

(** [text.split(' ')]: the pieces between the separators, in order;
    a text without separator is its own single piece, also when it is
    empty. *)
Fixpoint split (text : jsstring) : list jsstring :=
  match text with
  | [] => [[]]
  | c :: rest =>
      if c =? space then [] :: split rest
      else match split rest with
           | w :: ws => (c :: w) :: ws
           | [] => [[c]]
           end
  end.

(** A string is truthy when it is not empty. *)
Definition truthy (s : jsstring) : bool :=
  match s with [] => false | _ => true end.

(** [a > b] on widths. *)
Definition gt (a b : Q) : bool := negb (Qle_bool a b).

(** The drawing context, as far as the routine uses it:
    [context.measureText(s).width]. *)
Definition Context := jsstring -> Q.

(** The body of [for (let w of words)], on the pair [(lines, current)]. *)
Definition step (maxWidth : Q) (context : Context)
    (st : list jsstring * jsstring) (w : jsstring) : list jsstring * jsstring :=
  let '(lines, current) := st in
  let test := if truthy current then current ++ [space] ++ w else w in
  let width := context test in
  if gt width maxWidth && truthy current
  then (lines ++ [current], w)
  else (lines, test).

(** [wrapText(text, maxWidth, context)]. *)
Definition wrapText (text : jsstring) (maxWidth : Q) (context : Context)
    : list jsstring :=
  let words := split text in
  let '(lines, current) := fold_left (step maxWidth context) words ([], []) in
  let lines := if truthy current then lines ++ [current] else lines in
  take 4 lines.

(** A line fits when it is no wider than [maxWidth], or is one word of
    [words] that alone is wider than [maxWidth]. *)
Definition fits (maxWidth : Q) (context : Context) (words : list jsstring)
    (line : jsstring) : Prop :=
  (context line <= maxWidth)%Q \/ (In line words /\ (maxWidth < context line)%Q).

(** What holds of [(lines, current)] throughout the loop. *)
Definition loopInv (maxWidth : Q) (context : Context) (words : list jsstring)
    (st : list jsstring * jsstring) : Prop :=
  Forall (fun line => line <> [] /\ fits maxWidth context words line) (fst st)
  /\ (snd st = [] \/ fits maxWidth context words (snd st)).

(** A context in which every code unit is ten pixels wide. *)
Definition monospace10 : Context := fun s => inject_Z (10 * Z.of_nat (length s)).

(** The default prompt of the application. *)
Definition defaultPrompt : jsstring :=
  lit "A dark biomechanical lord awakens amidst thunder".

End Wrap.

(** ** Merge driver *)

Module Merge.

(** Callbacks handed to [setTimeout]. *)
Inductive callback :=
| StartSource        (* [() => src.start()] *)
| StopRecorder       (* [() => recorder.stop()] *)
| ScrollToPreview.   (* [() => mergedRef.current?.scrollIntoView(..)] *)

Inductive exn :=
| TypeError          (* a method called on [null] *)
| DecodeError        (* [decodeAudioData] rejected *)
| NotSupportedError  (* a constructor refused its arguments *)
| NotReadableError   (* the bytes of a blob could not be read *)
| InvalidStateError. (* an object was not in the state a call needs *)

(** What the driver asks of the platform, in program order.  The delay
    of a timer is the number handed to [setTimeout]. *)
Inductive effect :=
| NewAudioContext                 (* [new AudioContext()] *)
| ReadArrayBuffer                 (* [audioBlob.arrayBuffer()] *)
| DecodeAudioData                 (* [audioCtx.decodeAudioData(..)] *)
| CreateCanvas (width height : Z) (* [createElement('canvas')], sized, [getContext('2d')] *)
| CreateMediaStreamDestination    (* [audioCtx.createMediaStreamDestination()] *)
| CreateBufferSource              (* [audioCtx.createBufferSource()], [src.buffer = decoded] *)
| ConnectToRecording              (* [src.connect(dest)] *)
| ConnectToSpeakers               (* [src.connect(audioCtx.destination)] *)
| NewMediaStream                  (* [new MediaStream()] *)
| CaptureStream (fps : Z)         (* [canvas.captureStream(fps)] *)
| AddVideoTracks                  (* the video tracks of the canvas added to the stream *)
| AddAudioTracks                  (* the audio tracks of [dest.stream] added to the stream *)
| NewMediaRecorder                (* [new MediaRecorder(stream, { mimeType: .. })] *)
| RecorderStart                   (* [recorder.start()] *)
| RequestAnimationFrame           (* [requestAnimationFrame(draw)] *)
| SetTimeout (cb : callback) (delay : float)
| Alert (msg : string)
| ConsoleError (e : exn)
| SetLoading (l : string)
| SetMergedBlob.

(** A computation logs its effects and ends in a value or in a thrown
    exception. *)
Definition M (A : Type) : Type := list effect * (exn + A).

Definition ret {A} (a : A) : M A := ([], inr a).

Definition bind {A B} (m : M A) (k : A -> M B) : M B :=
  match m with
  | (t, inl e) => (t, inl e)
  | (t, inr a) => let '(t', r) := k a in (t ++ t', r)
  end.

Definition emit (e : effect) : M unit := ([e], inr tt).

Definition throw {A} (e : exn) : M A := ([], inl e).

(** [try { body } catch (e) { handler e } finally { fin }]. *)
Definition tryCatchFinally (body : M unit) (handler : exn -> M unit)
    (fin : M unit) : M unit :=
  let caught :=
    match body with
    | (t, inl e) => let '(t', r) := handler e in (t ++ t', r)
    | (t, inr a) => (t, inr a)
    end in
  match caught with
  | (t, r) => let '(t', r') := fin in
              (t ++ t', match r' with inl e => inl e | inr _ => r end)
  end.

#[export] Instance M_ret : MRet M := @ret.
#[export] Instance M_bind : MBind M := fun A B k m => bind m k.

(** An audio blob is its bytes. *)
Definition Blob := list Z.

(** The browser under the driver: [refuses c] is the exception a call
    of the media and audio interfaces throws, or rejects its promise
    with, when it does not succeed; [decodeAudioData] gives the
    [duration] of the decoded buffer, a binary64 number of seconds, or
    nothing when the bytes cannot be decoded. *)
Record Platform := {
  refuses : effect -> option exn;
  decodeAudioData : Blob -> option float
}.

(** A call that the platform may refuse: a refused call throws and
    leaves no effect. *)
Definition call (p : Platform) (c : effect) : M unit :=
  match refuses p c with
  | Some e => throw e
  | None => emit c
  end.

(** The least integer not below [a / b], for [0 < b]. *)
Definition ceilDiv (a b : Z) : Z := - ((- a) / b).

(** [Math.ceil] on binary64.  Zeros, infinities and NaN are returned
    as they are, and so is a number [m * 2^e] with [0 <= e], an
    integer.  With [e < 0] the result is the least integer not below
    [m * 2^e]; it is at most [2^53], so binary64 holds it exactly.
    The ceiling of a negative number above [-1] is [-0]. *)
Definition mathCeil (x : float) : float :=
  match Prim2SF x with
  | S754_finite s m e =>
      if 0 <=? e then x
      else if s
           then (- of_uint63 (of_Z (- ceilDiv (Z.neg m) (2 ^ (- e)))))%float
           else of_uint63 (of_Z (ceilDiv (Z.pos m) (2 ^ (- e))))
  | _ => x
  end.

(** [renderMergedAV(prompt, audioBlob, fps)], up to the point where
    the returned promise waits for the recorder to stop.  The frames
    drawn by [draw] are left out, as are the steps that cannot fail
    ([paletteFromPrompt], the reading of the clock, the handlers
    assigned to the recorder).  The timers and [requestAnimationFrame]
    take a function and a number and do not throw. *)
Definition renderMergedAV (p : Platform) (prompt : jsstring)
    (audioBlob : option Blob) (fps : Z) : M unit :=
  call p NewAudioContext ;;
  arrayBuf ← match audioBlob with
             | None => throw TypeError
             | Some b => call p ReadArrayBuffer ;; ret b
             end;
  duration ← (call p DecodeAudioData ;;
              match decodeAudioData p arrayBuf with
              | None => throw DecodeError
              | Some d => ret d
              end);
  call p (CreateCanvas 720 1280) ;;
  call p CreateMediaStreamDestination ;;
  call p CreateBufferSource ;;
  call p ConnectToRecording ;;
  call p ConnectToSpeakers ;;
  call p NewMediaStream ;;
  call p (CaptureStream fps) ;;
  call p AddVideoTracks ;;
  call p AddAudioTracks ;;
  call p NewMediaRecorder ;;
  call p RecorderStart ;;
  emit RequestAnimationFrame ;;
  emit (SetTimeout StartSource 50) ;;
  emit (SetTimeout StopRecorder (mathCeil (duration * 1000) + 100)).

(** [mergeAndPreview], with the [audioBlob] and [prompt] of the
    component state.  The promise of [renderMergedAV] is awaited; it is
    resolved by the stop event of the recorder, which the stop timer
    brings about, and that wait is taken to end. *)
Definition mergeAndPreview (p : Platform) (prompt : jsstring)
    (audioBlob : option Blob) : M unit :=
  match audioBlob with
  | None => emit (Alert "Generate audio first.")
  | Some _ =>
      tryCatchFinally
        (emit (SetLoading "merge") ;;
         renderMergedAV p prompt audioBlob 30 ;;
         emit SetMergedBlob ;;
         emit (SetTimeout ScrollToPreview 100))
        (fun e => emit (ConsoleError e) ;;
                  emit (Alert "Merge failed. Please try again."))
        (emit (SetLoading ""))
  end.

Definition trace {A} (m : M A) : list effect := fst m.

(** The delay with which a callback was scheduled, if it was. *)
Fixpoint scheduledDelay (cb : callback) (t : list effect) : option float :=
  match t with
  | [] => None
  | SetTimeout StartSource d :: rest =>
      match cb with StartSource => Some d | _ => scheduledDelay cb rest end
  | SetTimeout StopRecorder d :: rest =>
      match cb with StopRecorder => Some d | _ => scheduledDelay cb rest end
  | SetTimeout ScrollToPreview d :: rest =>
      match cb with ScrollToPreview => Some d | _ => scheduledDelay cb rest end
  | _ :: rest => scheduledDelay cb rest
  end.

(** Effects that start an audio context, a capture session or a
    recorder. *)
Definition startsCapture (e : effect) : bool :=
  match e with
  | NewAudioContext | CreateMediaStreamDestination | CreateBufferSource
  | ConnectToRecording | ConnectToSpeakers | NewMediaStream
  | CaptureStream _ | AddVideoTracks | AddAudioTracks
  | NewMediaRecorder | RecorderStart => true
  | _ => false
  end.

(** Effects of the set-up of a merge, before the recorder runs. *)
Definition isSetup (e : effect) : bool :=
  match e with
  | NewAudioContext | ReadArrayBuffer | DecodeAudioData | CreateCanvas _ _
  | CreateMediaStreamDestination | CreateBufferSource
  | ConnectToRecording | ConnectToSpeakers | NewMediaStream
  | CaptureStream _ | AddVideoTracks | AddAudioTracks
  | NewMediaRecorder => true
  | _ => false
  end.

(** A browser that refuses nothing and decodes every blob to [d]
    seconds. *)
Definition decodesTo (d : float) : Platform :=
  {| refuses := fun _ => None; decodeAudioData := fun _ => Some d |}.

(** A browser that supports no recorder for the container and codecs
    asked for; everything else as [decodesTo d]. *)
Definition withoutVp9Opus (d : float) : Platform :=
  {| refuses := fun c => match c with
                         | NewMediaRecorder => Some NotSupportedError
                         | _ => None
                         end;
     decodeAudioData := fun _ => Some d |}.

End Merge.

(** ** Master gain envelope *)

Module Envelope.

Inductive kind := SetValue | LinearRamp.

(** An automation event of an [AudioParam]. *)
Record event := { ev_kind : kind; ev_value : Q; ev_time : Q }.

(** Modelled from the spec: the automation timeline of the platform's
    [AudioParam] is not part of the repository.  A new event goes after
    the events that are not later than it, so the timeline stays ordered
    by time and events of one time keep their order of insertion. *)
Fixpoint insertEvent (e : event) (timeline : list event) : list event :=
  match timeline with
  | [] => [e]
  | x :: rest =>
      if Qlt_le_dec (ev_time e) (ev_time x) then e :: x :: rest
      else x :: insertEvent e rest
  end.

Definition setValueAtTime (value startTime : Q) (timeline : list event) :=
  insertEvent {| ev_kind := SetValue; ev_value := value; ev_time := startTime |} timeline.

Definition linearRampToValueAtTime (value endTime : Q) (timeline : list event) :=
  insertEvent {| ev_kind := LinearRamp; ev_value := value; ev_time := endTime |} timeline.

(** Modelled from the spec: the value of the parameter at time [t],
    coming from the value [v0] reached at time [t0].  An event whose
    time has come sets the value; before the time of a linear ramp the
    value moves in a straight line from [(t0, v0)] to the ramp's end
    point; before the time of a set-value event it holds. *)
Fixpoint valueFrom (v0 t0 : Q) (timeline : list event) (t : Q) : Q :=
  match timeline with
  | [] => v0
  | e :: rest =>
      if Qle_bool (ev_time e) t then valueFrom (ev_value e) (ev_time e) rest t
      else match ev_kind e with
           | SetValue => v0
           | LinearRamp =>
               v0 + (ev_value e - v0) * ((t - t0) / (ev_time e - t0))
           end
  end.

(** The four calls on [master.gain], in the order of the source. *)
Definition masterGainTimeline (seconds : Q) : list event :=
  let tl := setValueAtTime 0 0 [] in
  let tl := linearRampToValueAtTime (8 # 10) 1 tl in
  let tl := linearRampToValueAtTime (6 # 10) (seconds - 1) tl in
  let tl := linearRampToValueAtTime 0 seconds tl in
  tl.

(** The gain of [master] at time [t] of a render of [seconds] seconds;
    a gain node starts at gain 1. *)
Definition masterGain (seconds t : Q) : Q :=
  valueFrom 1 0 (masterGainTimeline seconds) t.

(** The straight line through [(t0, v0)] and [(t1, v1)], at [t]. *)
Definition lerp (t0 v0 t1 v1 t : Q) : Q :=
  v0 + (v1 - v0) * ((t - t0) / (t1 - t0)).

End Envelope.

(** ** Waveform encoder *)

(** The [AudioBuffer] handed to the encoder: [getChannelData ch i] is
    the sample [buffer.getChannelData(ch)[i]], read only for
    [ch < numberOfChannels] and [i < length]. *)
Module AudioBuffer.
Record t := {
  numberOfChannels : nat;
  sampleRate : Z;
  length : nat;
  getChannelData : nat -> nat -> Q
}.
End AudioBuffer.

Module Wav.

(** *** [DataView] over a little-endian byte array *)

(** The [n] low bytes of [v], least significant first. *)
Fixpoint leBytes (n : nat) (v : Z) : list Z :=
  match n with
  | O => []
  | S n => v mod 256 :: leBytes n (v / 256)
  end.

(** The number whose little-endian bytes are [bytes]. *)
Fixpoint fromLE (bytes : list Z) : Z :=
  match bytes with
  | [] => 0
  | b :: rest => b + 256 * fromLE rest
  end.

(** Store [bytes] from [byteOffset] on. *)
Fixpoint writeBytes (view : list Z) (byteOffset : nat) (bytes : list Z) : list Z :=
  match bytes with
  | [] => view
  | b :: rest => writeBytes (<[byteOffset := b]> view) (S byteOffset) rest
  end.

(** A setter of width [n] bytes: a [RangeError] ([None]) when the bytes
    do not fit, else the value modulo [2^(8n)], little-endian. *)
Definition setLE (n : nat) (view : list Z) (byteOffset : nat) (value : Z)
    : option (list Z) :=
  if (byteOffset + n <=? List.length view)%nat
  then Some (writeBytes view byteOffset (leBytes n value))
  else None.

Definition setUint8 := setLE 1.
Definition setUint16 := setLE 2.
Definition setUint32 := setLE 4.

(** [truncate(x)] of ECMAScript: the fractional part is dropped. *)
Definition truncate (x : Q) : Z :=
  if Qlt_le_dec x 0 then - Qfloor (- x) else Qfloor x.

(** [ToInt16]. *)
Definition toInt16 (x : Q) : Z :=
  let int := truncate x in
  let int16bit := int mod 2^16 in
  if 2^15 <=? int16bit then int16bit - 2^16 else int16bit.

(** [view.setInt16(byteOffset, value, true)]. *)
Definition setInt16 (view : list Z) (byteOffset : nat) (value : Q)
    : option (list Z) :=
  setLE 2 view byteOffset (toInt16 value).

(** [view.getUint32(byteOffset, true)] and [view.getInt16(byteOffset, true)],
    the readers matching the setters. *)
Definition getLE (n : nat) (view : list Z) (byteOffset : nat) : option Z :=
  if (byteOffset + n <=? List.length view)%nat
  then Some (fromLE (take n (drop byteOffset view)))
  else None.

Definition getUint32 := getLE 4.

Definition getInt16 (view : list Z) (byteOffset : nat) : option Z :=
  u ← getLE 2 view byteOffset;
  Some (if 2^15 <=? u then u - 2^16 else u).

(** *** The encoder *)

(** [writeString(view, offset, string)]. *)
Fixpoint writeString (view : list Z) (offset : nat) (string : jsstring)
    : option (list Z) :=
  match string with
  | [] => Some view
  | c :: rest =>
      view ← setUint8 view offset c;
      writeString view (S offset) rest
  end.

(** The two nested loops that fill [interleaved]. *)
Definition interleave (buffer : AudioBuffer.t) : list Q :=
  let numOfChan := AudioBuffer.numberOfChannels buffer in
  let numFrames := AudioBuffer.length buffer in
  let interleaved := replicate (numFrames * numOfChan) (0 : Q) in
  fold_left (fun interleaved ch =>
    let channel := AudioBuffer.getChannelData buffer ch in
    fold_left (fun interleaved i =>
                 <[(i * numOfChan + ch)%nat := channel i]> interleaved)
              (seq 0 numFrames) interleaved)
    (seq 0 numOfChan) interleaved.

(** [Math.max(-1, Math.min(1, x))]. *)
Definition clamp (x : Q) : Q := Qmax (-1) (Qmin 1 x).

(** The argument of [setInt16]: [s < 0 ? s * 0x8000 : s * 0x7fff]
    for the clamped [s]. *)
Definition scaled (x : Q) : Q :=
  let s := clamp x in
  if Qlt_le_dec s 0 then s * 32768 else s * 32767.

(** The loop that writes the samples, from [idx] on. *)
Fixpoint writePCM (view : list Z) (idx : nat) (interleaved : list Q)
    : option (list Z) :=
  match interleaved with
  | [] => Some view
  | x :: rest =>
      view ← setInt16 view idx (scaled x);
      writePCM view (idx + 2) rest
  end.

(** [audioBufferToWavBlob(buffer)]: the bytes of the blob. *)
Definition audioBufferToWavBlob (buffer : AudioBuffer.t) : option (list Z) :=
  let numOfChan := AudioBuffer.numberOfChannels buffer in
  let sampleRate := AudioBuffer.sampleRate buffer in
  let numFrames := AudioBuffer.length buffer in
  let bytesPerSample := 2%nat in
  let blockAlign := (numOfChan * bytesPerSample)%nat in
  let bufferLength := (44 + numFrames * blockAlign)%nat in
  let view := replicate bufferLength 0 in
  let offset := 0%nat in
  view ← writeString view offset (lit "RIFF"); let offset := (offset + 4)%nat in
  view ← setUint32 view offset (36 + Z.of_nat (numFrames * blockAlign));
  let offset := (offset + 4)%nat in
  view ← writeString view offset (lit "WAVE"); let offset := (offset + 4)%nat in
  view ← writeString view offset (lit "fmt "); let offset := (offset + 4)%nat in
  view ← setUint32 view offset 16; let offset := (offset + 4)%nat in
  view ← setUint16 view offset 1; let offset := (offset + 2)%nat in
  view ← setUint16 view offset (Z.of_nat numOfChan); let offset := (offset + 2)%nat in
  view ← setUint32 view offset sampleRate; let offset := (offset + 4)%nat in
  view ← setUint32 view offset (sampleRate * Z.of_nat blockAlign);
  let offset := (offset + 4)%nat in
  view ← setUint16 view offset (Z.of_nat blockAlign); let offset := (offset + 2)%nat in
  view ← setUint16 view offset 16; let offset := (offset + 2)%nat in
  view ← writeString view offset (lit "data"); let offset := (offset + 4)%nat in
  view ← setUint32 view offset (Z.of_nat (numFrames * blockAlign));
  let interleaved := interleave buffer in
  let idx := 44%nat in
  writePCM view idx interleaved.

(** *** The blob in closed form *)

(** [ToUint8] of each code unit. *)
Definition stringBytes (string : jsstring) : list Z :=
  map (fun c => c mod 256) string.

(** The 44 bytes of the header. *)
Definition wavHeader (numOfChan : nat) (sampleRate : Z) (numFrames : nat) : list Z :=
  let blockAlign := (numOfChan * 2)%nat in
  stringBytes (lit "RIFF")
  ++ leBytes 4 (36 + Z.of_nat (numFrames * blockAlign))
  ++ stringBytes (lit "WAVE")
  ++ stringBytes (lit "fmt ")
  ++ leBytes 4 16
  ++ leBytes 2 1
  ++ leBytes 2 (Z.of_nat numOfChan)
  ++ leBytes 4 sampleRate
  ++ leBytes 4 (sampleRate * Z.of_nat blockAlign)
  ++ leBytes 2 (Z.of_nat blockAlign)
  ++ leBytes 2 16
  ++ stringBytes (lit "data")
  ++ leBytes 4 (Z.of_nat (numFrames * blockAlign)).

(** The two bytes of each sample, in order. *)
Definition pcmBytes (interleaved : list Q) : list Z :=
  flat_map (fun x => leBytes 2 (toInt16 (scaled x))) interleaved.

(** *** What the statements about the encoder compare with *)

(** The sample formula as the specification words it:
    [clamp(s,-1,1) * (s<0 ? 32768 : 32767)]. *)
Definition spec_scaled (s : Q) : Q :=
  clamp s * (if Qlt_le_dec s 0 then 32768 else 32767).

(** [Math.round]: the nearest integer, halves upwards. *)
Definition round (x : Q) : Z := Qfloor (x + (1 # 2)).

(** The decoder of the round-trip statement: a stored 16-bit value is
    divided by 32768 when negative and by 32767 otherwise. *)
Definition decodeSample (v : Z) : Q :=
  if v <? 0 then inject_Z v / 32768 else inject_Z v / 32767.

(** *** Sample buffers *)

(** Two channels, three frames. *)
Definition smallBuffer : AudioBuffer.t :=
  {| AudioBuffer.numberOfChannels := 2;
     AudioBuffer.sampleRate := 44100;
     AudioBuffer.length := 3;
     AudioBuffer.getChannelData := fun ch i =>
       (match ch, i with
        | O, O => 1 # 4
        | O, 1%nat => - (1 # 3)
        | O, _ => 1
        | _, O => -1
        | _, 1%nat => 5 # 7
        | _, _ => - (1 # 100000)
        end)%Q |}.

(** One channel, one frame, the sample [0.25]. *)
Definition quarterBuffer : AudioBuffer.t :=
  {| AudioBuffer.numberOfChannels := 1;
     AudioBuffer.sampleRate := 44100;
     AudioBuffer.length := 1;
     AudioBuffer.getChannelData := fun _ _ => 1 # 4 |}.

(** A silent buffer of [numOfChan] channels and [numFrames] frames at
    44100 Hz. *)
Definition silence (numOfChan numFrames : nat) : AudioBuffer.t :=
  {| AudioBuffer.numberOfChannels := numOfChan;
     AudioBuffer.sampleRate := 44100;
     AudioBuffer.length := numFrames;
     AudioBuffer.getChannelData := fun _ _ => 0%Q |}.

End Wav.

(** ** Further parts of the application *)

(** *** The accumulator of the hasher and the palette *)

Module Palette.
Import Hash Params.

(** The value of [hash] when the loop of [hashString] ends. *)
Definition accumulator (str : jsstring) : Z := fold_left step str 0.

(** The polynomial [c0*31^(n-1) + ... + c(n-1)] in the code units,
    without any wrap-around. *)
Definition poly (str : jsstring) : Z :=
  fold_left (fun acc code => acc * 31 + code) str 0.

(** A whole number in a template literal: its decimal digits. *)
Definition numberToString (n : Z) : jsstring :=
  lit (NilZero.string_of_int (Z.to_int n)).

(** [hues[k]] in a template literal; an index outside the array reads
    [undefined]. *)
Definition hueToString (hues : list Z) (k : Z) : jsstring :=
  match hues !! Z.to_nat k with
  | Some hue => numberToString hue
  | None => lit "undefined"
  end.

(** The body of [paletteFromPrompt] from the hash [h] on. *)
Definition paletteOfHash (h : Z) : jsstring :=
  let hues := [190; 195; 200; 205; 210; 215] in
  let hue := hueToString hues (jsrem h (Z.of_nat (List.length hues))) in
  let sat := 80 + jsrem h 20 in
  let light := 45 + jsrem h 10 in
  lit "hsl(" ++ hue ++ lit " " ++ numberToString sat ++ lit "% "
  ++ numberToString light ++ lit "%)".

(** [paletteFromPrompt(prompt)]. *)
Definition paletteFromPrompt (prompt : jsstring) : jsstring :=
  let h := hashString prompt in
  paletteOfHash h.

End Palette.

(** *** Reading the blob *)

Module WavRead.
Import Wav.

(** [view.getUint16(byteOffset, true)]. *)
Definition getUint16 := getLE 2.

(** The [n] bytes of a blob from [offset] on. *)
Definition slice (blob : list Z) (offset n : nat) : list Z :=
  take n (drop offset blob).

(** The 16-bit number the blob holds for the sample of channel [ch]
    and frame [i]. *)
Definition storedSample (buffer : AudioBuffer.t) (ch i : nat) : option Z :=
  blob ← audioBufferToWavBlob buffer;
  getInt16 blob (44 + 2 * (i * AudioBuffer.numberOfChannels buffer + ch)).

(** The samples frame by frame, and channel by channel within a frame. *)
Definition frameMajor (buffer : AudioBuffer.t) : list Q :=
  flat_map (fun i => map (fun ch => AudioBuffer.getChannelData buffer ch i)
                         (seq 0 (AudioBuffer.numberOfChannels buffer)))
           (seq 0 (AudioBuffer.length buffer)).

(** Two channels of two frames with samples beyond full scale. *)
Definition loudBuffer : AudioBuffer.t :=
  {| AudioBuffer.numberOfChannels := 2;
     AudioBuffer.sampleRate := 44100;
     AudioBuffer.length := 2;
     AudioBuffer.getChannelData := fun ch i =>
       (match ch, i with
        | O, O => 3 # 2
        | O, _ => -2
        | _, O => 1 # 40000
        | _, _ => - (1 # 40000)
        end)%Q |}.

(** A sample that is stored as the 16-bit number [v] and that a
    [Float32Array] holds exactly: a multiple of [2^-15] within
    [-1, 1]. *)
Definition sampleStoredAs (v : Z) : Q :=
  if v <? 0 then inject_Z v / 32768 else inject_Z (v + 1) / 32768.

(** One channel of one frame holding [sampleStoredAs v]. *)
Definition dyadicBuffer (v : Z) : AudioBuffer.t :=
  {| AudioBuffer.numberOfChannels := 1;
     AudioBuffer.sampleRate := 44100;
     AudioBuffer.length := 1;
     AudioBuffer.getChannelData := fun _ _ => sampleStoredAs v |}.

End WavRead.

(** *** The lines of the word wrap before the cap *)

Module WrapLines.
Import Wrap.

(** The lines of [wrapText] before [slice(0, 4)] caps them. *)
Definition allLines (text : jsstring) (maxWidth : Q) (context : Context)
    : list jsstring :=
  let words := split text in
  let '(lines, current) := fold_left (step maxWidth context) words ([], []) in
  if truthy current then lines ++ [current] else lines.

(** The words of a text that are not empty, in order. *)
Definition nonEmptyWords (text : jsstring) : list jsstring :=
  List.filter truthy (split text).

(** A measure under which a text is at least as wide as each of its two
    parts around a space. *)
Definition monotone (context : Context) : Prop :=
  forall a b : jsstring,
    (context a <= context (a ++ space :: b))%Q
    /\ (context b <= context (a ++ space :: b))%Q.

(** The break between two lines was forced: the second line starts with
    a word of the text that did not fit at the end of the first. *)
Definition forcedBreak (maxWidth : Q) (context : Context) (words : list jsstring)
    (line next : jsstring) : Prop :=
  exists w rest,
    next = w ++ rest /\ In w words
    /\ (maxWidth < context (line ++ space :: w))%Q.

(** What holds of [(lines, current)] in the loop as to forced breaks. *)
Definition breaksInv (maxWidth : Q) (context : Context) (words : list jsstring)
    (st : list jsstring * jsstring) : Prop :=
  (forall i a b, fst st !! i = Some a -> fst st !! S i = Some b ->
     forcedBreak maxWidth context words a b)
  /\ (forall a, last (fst st) = Some a ->
        forcedBreak maxWidth context words a (snd st)).

End WrapLines.

(** *** The frame loops and the recorded chunks *)

Module Capture.

(** What a call of [draw] does, in order.  The two functions of that
    name paint different frames: the one of [renderMergedAV] turns its
    shapes by [elapsed * 0.7], not [elapsed * 0.6], and has no ribbon. *)
Inductive frameEffect :=
| DrawFrame (elapsed : float)        (* the frame of [generateProceduralVideo] *)
| DrawMergedFrame (elapsed : float)  (* the frame of [renderMergedAV] *)
| RequestFrame                       (* [requestAnimationFrame(draw)] *)
| StopCapture.                       (* [recorder.stop()] *)

(** [const elapsed = (t - start) / 1000], in binary64. *)
Definition elapsedAt (start t : float) : float := ((t - start) / 1000)%float.

(** [draw] of [generateProceduralVideo], called by the platform with the
    timestamps [timestamps] one after the other, as long as the
    previous call asked for a next frame. *)
Fixpoint drawLoop (start seconds : float) (timestamps : list float)
    : list frameEffect :=
  match timestamps with
  | [] => []
  | t :: rest =>
      let elapsed := elapsedAt start t in
      DrawFrame elapsed ::
      (if PrimFloat.ltb elapsed seconds
       then RequestFrame :: drawLoop start seconds rest
       else [StopCapture])
  end.

(** [draw] of [renderMergedAV]: it paints its own frame and has no
    [else] branch. *)
Fixpoint mergeDrawLoop (start duration : float) (timestamps : list float)
    : list frameEffect :=
  match timestamps with
  | [] => []
  | t :: rest =>
      let elapsed := elapsedAt start t in
      DrawMergedFrame elapsed ::
      (if PrimFloat.ltb elapsed duration
       then RequestFrame :: mergeDrawLoop start duration rest
       else [])
  end.

(** The frame of a timestamp is followed by a next one. *)
Definition continues (start seconds t : float) : bool :=
  PrimFloat.ltb (elapsedAt start t) seconds.

Definition isStop (e : frameEffect) : bool :=
  match e with StopCapture => true | _ => false end.

(** [recorder.ondataavailable = (e) => e.data.size && chunks.push(e.data)],
    a chunk being its bytes. *)
Definition onDataAvailable (chunks : list (list Z)) (data : list Z)
    : list (list Z) :=
  if (List.length data =? 0)%nat then chunks else chunks ++ [data].

(** [new Blob(chunks)] at [recorder.onstop], after the data events
    [events]. *)
Definition recordedBlob (events : list (list Z)) : list Z :=
  concat (fold_left onDataAvailable events []).

(** Timestamps of a capture started at 1000 ms. *)
Definition sampleTimestamps : list float :=
  [1016; 1500; 1999; 2000; 2016; 2033]%float.

End Capture.

(** *** The prompt text on the canvas *)

Module Layout.
Import Wrap.

(** One call [ctx.fillText(line, x, y)]. *)
Record fillText := { ft_line : jsstring; ft_x : Q; ft_y : Q }.

(** The [lines.forEach] of [draw], with [cx] and [cy] the centre of the
    canvas. *)
Definition fillLines (lines : list jsstring) (context : Context) (cx cy : Q)
    : list fillText :=
  let textY := (cy - inject_Z (Z.of_nat (List.length lines)) * 18)%Q in
  imap (fun idx line =>
          let tw := context line in
          {| ft_line := line;
             ft_x := (cx - tw / 2)%Q;
             ft_y := (textY + inject_Z (Z.of_nat idx) * 32)%Q |})
       lines.

(** The text part of [draw]: the prompt is wrapped at eight tenths of
    the width and its lines are drawn around the centre. *)
Definition drawPromptText (prompt : jsstring) (width height : Q) (context : Context)
    : list fillText :=
  let cx := (width / 2)%Q in
  let cy := (height / 2)%Q in
  let lines := wrapText prompt (width * (8 # 10)) context in
  fillLines lines context cx cy.

End Layout.


(** * Properties *)

Module HashFacts.
Import Hash.

Lemma toInt32_range x : - 2^31 <= toInt32 x < 2^31.
Proof. unfold toInt32. pose proof (Z.mod_pos_bound (x + 2^31) (2^32)). lia. Qed.

Lemma toInt32_small x : - 2^31 <= x < 2^31 -> toInt32 x = x.
Proof. intros H. unfold toInt32. rewrite Z.mod_small; lia. Qed.

Lemma toInt32_idem x : toInt32 (toInt32 x) = toInt32 x.
Proof. apply toInt32_small, toInt32_range. Qed.

Lemma toInt32_eqm x : toInt32 x mod 2^32 = x mod 2^32.
Proof.
  unfold toInt32.
  rewrite Zminus_mod, Zmod_mod, <- Zminus_mod.
  f_equal. lia.
Qed.

Lemma toInt32_congr x y : x mod 2^32 = y mod 2^32 -> toInt32 x = toInt32 y.
Proof.
  intros H. unfold toInt32.
  rewrite (Zplus_mod x), (Zplus_mod y), H. reflexivity.
Qed.

Lemma step_spec hash code :
  - 2^31 <= hash < 2^31 -> step hash code = spec_step hash code.
Proof.
  intros Hr. unfold step, spec_step, bor, shl.
  rewrite (toInt32_small 0) by lia.
  rewrite Z.lor_0_r, toInt32_idem.
  rewrite (toInt32_small hash) by lia.
  apply toInt32_congr.
  rewrite Z.shiftl_mul_pow2 by lia.
  rewrite <- Z.add_sub_swap.
  rewrite Zminus_mod, Zplus_mod, toInt32_eqm, <- Zplus_mod, <- Zminus_mod.
  f_equal. lia.
Qed.

Lemma step_range hash code : - 2^31 <= step hash code < 2^31.
Proof. unfold step, bor. apply toInt32_range. Qed.

(** The fold over a non-empty string, as an equation to rewrite with. *)
Lemma fold_left_cons_eq {A B} (f : A -> B -> A) x l a :
  fold_left f (x :: l) a = fold_left f l (f a x).
Proof. reflexivity. Qed.

Lemma fold_step_spec str : forall acc,
  - 2^31 <= acc < 2^31 ->
  fold_left step str acc = fold_left spec_step str acc
  /\ - 2^31 <= fold_left step str acc < 2^31.
Proof.
  induction str as [|c str IH]; intros acc Hacc.
  - split; [reflexivity | exact Hacc].
  - rewrite !fold_left_cons_eq.
    rewrite <- (step_spec acc c Hacc).
    exact (IH (step acc c) (step_range acc c)).
Qed.

End HashFacts.

Module ParamsFacts.
Import Hash Params HashFacts.

Lemma hashString_bounds str : 0 <= hashString str <= 2^31.
Proof.
  unfold hashString.
  destruct (fold_step_spec str 0) as [_ H]; lia.
Qed.

Lemma jsrem_range a b : 0 <= a -> 0 < b -> 0 <= jsrem a b < b.
Proof. intros Ha Hb. unfold jsrem. apply Z.rem_bound_pos; lia. Qed.

(** The thirty binary64 values the LFO rate can take. *)
Lemma lfoOfIndex_range k :
  0 <= k < 30 ->
  PrimFloat.leb 0.1 (lfoOfIndex k) = true /\ PrimFloat.ltb (lfoOfIndex k) 0.4 = true.
Proof.
  intros Hk.
  assert (Hcases : exists n : nat, (n < 30)%nat /\ k = Z.of_nat n).
  { exists (Z.to_nat k). lia. }
  destruct Hcases as (n & Hn & ->).
  do 30 (destruct n as [|n]; [vm_compute; split; reflexivity|]).
  lia.
Qed.

(** C6: the prompt hasher is total; it folds every character code into
    the accumulator as [acc*31 + code] wrapped to 32-bit two's
    complement (the source computes [(acc << 5) - acc + code] and wraps
    with [| 0]), returns the absolute value of the final accumulator,
    and its result is a non-negative integer that fits in 32 bits. *)
Theorem hashString_is_wrapped_fold (str : jsstring) :
  Hash.hashString str = Hash.spec_hash str
  /\ 0 <= Hash.hashString str <= 2^31
  /\ Hash.hashString str < 2^32.
Proof.
  pose proof (hashString_bounds str) as Hb.
  split; [|lia].
  unfold hashString, spec_hash.
  destruct (fold_step_spec str 0) as [-> _]; [lia | reflexivity].
Qed.

(** The bound [2^31] is reached: the accumulator can end at [-2^31],
    whose absolute value is not a signed 32-bit integer. *)
Example hashString_reaches_2_31 : Hash.hashString [2325; 9; 30; 12; 2] = 2^31.
Proof. reflexivity. Qed.

Example hashString_test : Hash.hashString (lit "test") = 3556498.
Proof. reflexivity. Qed.

(** C3: for every prompt the base frequency is in [110, 330), the
    detune in [-100, 100), and the LFO rate in [0.1, 0.4), both as the
    binary64 number the source computes and as a rational. *)
Theorem parameters_in_range (prompt : jsstring) :
  (baseFreq prompt = 110 + hashString prompt mod 220
   /\ 110 <= baseFreq prompt < 330)
  /\ (detuneCents prompt = hashString (prompt ++ lit "detune") mod 200 - 100
      /\ -100 <= detuneCents prompt < 100)
  /\ (PrimFloat.leb 0.1 (lfoRate prompt) = true
      /\ PrimFloat.ltb (lfoRate prompt) 0.4 = true)
  /\ (1 # 10 <= lfoRateQ prompt /\ lfoRateQ prompt < 4 # 10)%Q.
Proof.
  pose proof (hashString_bounds prompt) as H1.
  pose proof (hashString_bounds (prompt ++ lit "detune")) as H2.
  pose proof (hashString_bounds (prompt ++ lit "lfo")) as H3.
  pose proof (jsrem_range _ 220 (proj1 H1) eq_refl) as R1.
  pose proof (jsrem_range _ 200 (proj1 H2) eq_refl) as R2.
  pose proof (jsrem_range _ 30 (proj1 H3) eq_refl) as R3.
  unfold baseFreq, detuneCents, lfoRate, lfoRateQ.
  repeat split; try lia.
  - unfold jsrem. rewrite Z.rem_mod_nonneg; lia.
  - unfold jsrem. rewrite Z.rem_mod_nonneg; lia.
  - apply lfoOfIndex_range, R3.
  - apply lfoOfIndex_range, R3.
  - set (k := jsrem _ 30) in *.
    assert (0 <= inject_Z k)%Q by (change 0%Q with (inject_Z 0); rewrite <- Zle_Qle; lia).
    change (inject_Z k / 100)%Q with (inject_Z k * (1 # 100))%Q. lra.
  - set (k := jsrem _ 30) in *.
    assert (inject_Z k <= 29)%Q by (change 29%Q with (inject_Z 29); rewrite <- Zle_Qle; lia).
    change (inject_Z k / 100)%Q with (inject_Z k * (1 # 100))%Q. lra.
Qed.

End ParamsFacts.

(** ** Word wrap *)

Module WrapFacts.
Import Wrap.

Lemma truthy_true s : truthy s = true <-> s <> [].
Proof. destruct s; simpl; split; congruence. Qed.

Lemma truthy_false s : truthy s = false <-> s = [].
Proof. destruct s; simpl; split; congruence. Qed.

Lemma gt_true a b : gt a b = true <-> (b < a)%Q.
Proof.
  unfold gt. rewrite negb_true_iff.
  split.
  - intros H. apply Qnot_le_lt. intros Hle. apply Qle_bool_iff in Hle. congruence.
  - intros H. destruct (Qle_bool a b) eqn:E; [|reflexivity].
    apply Qle_bool_iff in E. exfalso. apply (Qlt_not_le _ _ H E).
Qed.

Lemma gt_false a b : gt a b = false <-> (a <= b)%Q.
Proof. unfold gt. rewrite negb_false_iff. apply Qle_bool_iff. Qed.

Lemma fits_word maxWidth context words w :
  In w words -> fits maxWidth context words w.
Proof.
  intros Hin. unfold fits.
  destruct (Qlt_le_dec maxWidth (context w)); [right | left]; auto.
Qed.

Section Loop.
Variables (maxWidth : Q) (context : Context) (words : list jsstring).

Lemma step_loopInv st w :
  In w words ->
  loopInv maxWidth context words st ->
  loopInv maxWidth context words (step maxWidth context st w).
Proof.
  intros Hw. destruct st as [lines current]. intros [Hlines Hcur]. simpl in *.
  unfold step.
  destruct (truthy current) eqn:Ecur.
  - apply truthy_true in Ecur.
    destruct Hcur as [Hcur | Hcur]; [congruence|].
    rewrite andb_true_r.
    destruct (gt _ maxWidth) eqn:Egt; split; simpl.
    + apply Forall_app; split; [exact Hlines|]. constructor; [split; assumption | constructor].
    + right. apply fits_word, Hw.
    + exact Hlines.
    + right. left. apply gt_false, Egt.
  - apply truthy_false in Ecur. rewrite andb_false_r. split; simpl.
    + exact Hlines.
    + right. apply fits_word, Hw.
Qed.

Lemma fold_step_loopInv ws : forall st,
  (forall w, In w ws -> In w words) ->
  loopInv maxWidth context words st ->
  loopInv maxWidth context words (fold_left (step maxWidth context) ws st).
Proof.
  induction ws as [|w ws IH]; intros st Hsub Hinv; simpl; [exact Hinv|].
  apply IH.
  - intros w' Hw'. apply Hsub. now right.
  - apply step_loopInv; [apply Hsub; now left | exact Hinv].
Qed.

End Loop.

Lemma wrapText_Forall text maxWidth context :
  Forall (fun line => line <> [] /\ fits maxWidth context (split text) line)
         (wrapText text maxWidth context).
Proof.
  unfold wrapText.
  pose proof (fold_step_loopInv maxWidth context (split text) (split text) ([], [])
                (fun _ H => H)) as Hinv.
  destruct (fold_left _ _ _) as [lines current].
  destruct Hinv as [Hlines Hcur]; [split; simpl; [constructor | now left]|].
  simpl in *.
  apply Forall_take.
  destruct (truthy current) eqn:Ecur; [|exact Hlines].
  apply truthy_true in Ecur.
  apply Forall_app; split; [exact Hlines|].
  destruct Hcur as [Hcur | Hcur]; [congruence|].
  constructor; [split; assumption | constructor].
Qed.

(** A word of [split] holds no separator. *)
Lemma split_no_space text : forall w, In w (split text) -> ~ In space w.
Proof.
  induction text as [|c rest IH]; simpl; intros w Hw.
  - destruct Hw as [<- | []]. intros [].
  - destruct (c =? space) eqn:Ec.
    + destruct Hw as [<- | Hw]; [intros [] | now apply IH].
    + destruct (split rest) as [|w0 ws] eqn:Es.
      * destruct Hw as [<- | []]. intros [-> | []]. now rewrite Z.eqb_refl in Ec.
      * destruct Hw as [<- | Hw].
        -- intros [-> | Hin]; [now rewrite Z.eqb_refl in Ec|].
           apply (IH w0); [now left | exact Hin].
        -- apply IH. now right.
Qed.

(** C9: for every text, width and measuring context the routine returns
    at most four lines, and each line is no wider than the maximum
    unless it is a single word of the text that alone is wider, which
    then stands unsplit on a line of its own. *)
Theorem wrapText_at_most_four_fitting_lines
    (text : jsstring) (maxWidth : Q) (context : Context) :
  (List.length (wrapText text maxWidth context) <= 4)%nat
  /\ forall line, In line (wrapText text maxWidth context) ->
       (context line <= maxWidth)%Q
       \/ (In line (split text) /\ ~ In space line /\ (maxWidth < context line)%Q).
Proof.
  split.
  - unfold wrapText.
    destruct (fold_left _ _ _) as [lines current].
    rewrite length_take. lia.
  - intros line Hin.
    pose proof (wrapText_Forall text maxWidth context) as HF.
    rewrite List.Forall_forall in HF.
    destruct (HF line Hin) as [_ [Hfit | [Hw Hwide]]]; [now left|].
    right. split; [exact Hw|]. split; [|exact Hwide].
    now apply (split_no_space text).
Qed.

(** The default prompt at a width of ten code units: four lines, one of
    them the word [biomechanical], which is wider than the maximum. *)
Example wrapText_defaultPrompt :
  wrapText defaultPrompt 100 monospace10
  = [lit "A dark"; lit "biomechanical"; lit "lord"; lit "awakens"].
Proof. reflexivity. Qed.

(** C10: no line the routine returns is the empty string, and for the
    empty text it returns no line at all. *)
Theorem wrapText_no_empty_line
    (text : jsstring) (maxWidth : Q) (context : Context) :
  (forall line, In line (wrapText text maxWidth context) -> line <> [])
  /\ wrapText [] maxWidth context = [].
Proof.
  split.
  - intros line Hin.
    pose proof (wrapText_Forall text maxWidth context) as HF.
    rewrite List.Forall_forall in HF.
    exact (proj1 (HF line Hin)).
  - unfold wrapText. simpl.
    destruct (gt (context []) maxWidth); reflexivity.
Qed.

End WrapFacts.

(** ** Merge driver *)

Module MergeFacts.
Import Merge.

(** [Math.ceil] on sample numbers: a fraction goes up, an integer
    stays, a negative fraction above [-1] gives [-0], and what has no
    fractional part or is not finite is unchanged. *)
Example mathCeil_samples :
  mathCeil 2.5 = 3%float
  /\ mathCeil 3000 = 3000%float
  /\ mathCeil (-2.5) = (-2)%float
  /\ mathCeil (-0.3) = (-0)%float
  /\ mathCeil 0 = 0%float
  /\ mathCeil 1e300 = 1e300%float
  /\ mathCeil infinity = infinity
  /\ PrimFloat.is_nan (mathCeil nan) = true.
Proof. vm_compute. repeat split. Qed.

(** The integer that [mathCeil] computes for a number with a
    fractional part is the least one not below it. *)
Lemma ceilDiv_spec a b :
  0 < b -> (ceilDiv a b - 1) * b < a <= ceilDiv a b * b.
Proof.
  intros Hb. unfold ceilDiv.
  pose proof (Z.div_mod (- a) b ltac:(lia)) as Hdm.
  pose proof (Z.mod_pos_bound (- a) b Hb) as Hm.
  nia.
Qed.

Lemma call_accepted p c : refuses p c = None -> call p c = ([c], inr tt).
Proof. intros H. unfold call. now rewrite H. Qed.

(** In a browser that refuses nothing, with a blob that decodes to [d]
    seconds, the driver runs to its two timers. *)
Lemma renderMergedAV_trace p prompt blob fps d :
  (forall c, refuses p c = None) ->
  decodeAudioData p blob = Some d ->
  renderMergedAV p prompt (Some blob) fps
  = ([NewAudioContext; ReadArrayBuffer; DecodeAudioData; CreateCanvas 720 1280;
      CreateMediaStreamDestination; CreateBufferSource;
      ConnectToRecording; ConnectToSpeakers; NewMediaStream; CaptureStream fps;
      AddVideoTracks; AddAudioTracks; NewMediaRecorder; RecorderStart;
      RequestAnimationFrame;
      SetTimeout StartSource 50;
      SetTimeout StopRecorder (mathCeil (d * 1000) + 100)], inr tt).
Proof.
  intros Hp Hd. unfold renderMergedAV.
  rewrite !call_accepted by apply Hp. cbn. rewrite Hd. reflexivity.
Qed.

(** Runs the driver under what is known of the platform. *)
Ltac run_driver :=
  unfold renderMergedAV, call;
  repeat (cbn;
          match goal with
          | H : refuses _ _ = _ |- _ => rewrite H
          | H : decodeAudioData _ _ = _ |- _ => rewrite H
          end);
  cbn.

Ltac failed_run := run_driver; eexists; split; reflexivity.

(** Every run of the driver on a blob either throws during the set-up,
    before the recorder is started and before any timer is set, or
    runs to its two timers. *)
Lemma renderMergedAV_cases p prompt blob fps :
  (exists e, snd (renderMergedAV p prompt (Some blob) fps) = inl e
             /\ forallb isSetup (trace (renderMergedAV p prompt (Some blob) fps)) = true)
  \/ (exists d, decodeAudioData p blob = Some d
        /\ renderMergedAV p prompt (Some blob) fps
           = ([NewAudioContext; ReadArrayBuffer; DecodeAudioData; CreateCanvas 720 1280;
               CreateMediaStreamDestination; CreateBufferSource;
               ConnectToRecording; ConnectToSpeakers; NewMediaStream; CaptureStream fps;
               AddVideoTracks; AddAudioTracks; NewMediaRecorder; RecorderStart;
               RequestAnimationFrame;
               SetTimeout StartSource 50;
               SetTimeout StopRecorder (mathCeil (d * 1000) + 100)], inr tt)).
Proof.
  destruct (refuses p NewAudioContext) eqn:E0; [left; failed_run|].
  destruct (refuses p ReadArrayBuffer) eqn:E1; [left; failed_run|].
  destruct (refuses p DecodeAudioData) eqn:E2; [left; failed_run|].
  destruct (decodeAudioData p blob) as [d|] eqn:Hd; [|left; failed_run].
  destruct (refuses p (CreateCanvas 720 1280)) eqn:E3; [left; failed_run|].
  destruct (refuses p CreateMediaStreamDestination) eqn:E4; [left; failed_run|].
  destruct (refuses p CreateBufferSource) eqn:E5; [left; failed_run|].
  destruct (refuses p ConnectToRecording) eqn:E6; [left; failed_run|].
  destruct (refuses p ConnectToSpeakers) eqn:E7; [left; failed_run|].
  destruct (refuses p NewMediaStream) eqn:E8; [left; failed_run|].
  destruct (refuses p (CaptureStream fps)) eqn:E9; [left; failed_run|].
  destruct (refuses p AddVideoTracks) eqn:E10; [left; failed_run|].
  destruct (refuses p AddAudioTracks) eqn:E11; [left; failed_run|].
  destruct (refuses p NewMediaRecorder) eqn:E12; [left; failed_run|].
  destruct (refuses p RecorderStart) eqn:E13; [left; failed_run|].
  right. exists d. split; [reflexivity|]. run_driver. reflexivity.
Qed.

(** Called on [null] the driver has made its audio context, when the
    browser has one, before the read of the blob throws; it never
    reaches a canvas, a capture stream or a recorder. *)
Lemma renderMergedAV_null_blob p prompt fps :
  renderMergedAV p prompt None fps
  = match refuses p NewAudioContext with
    | Some e => ([], inl e)
    | None => ([NewAudioContext], inl TypeError)
    end.
Proof. unfold renderMergedAV, call. destruct (refuses p NewAudioContext); reflexivity. Qed.

(** The guard and the three parts of [try], [catch] and [finally] of
    [mergeAndPreview]. *)
Lemma mergeAndPreview_with_blob p prompt blob :
  mergeAndPreview p prompt (Some blob)
  = match renderMergedAV p prompt (Some blob) 30 with
    | (t, inl e) =>
        (SetLoading "merge" :: t
           ++ [ConsoleError e; Alert "Merge failed. Please try again."; SetLoading ""],
         inr tt)
    | (t, inr _) =>
        (SetLoading "merge" :: t
           ++ [SetMergedBlob; SetTimeout ScrollToPreview 100; SetLoading ""],
         inr tt)
    end.
Proof.
  unfold mergeAndPreview.
  destruct (renderMergedAV p prompt (Some blob) 30) as [t [e | []]]; cbn.
  - rewrite <- app_assoc. reflexivity.
  - rewrite <- !app_assoc. reflexivity.
Qed.

(** C7, as the code has it: whenever the driver reaches its timers,
    the stop of the recorder is scheduled [Math.ceil(d * 1000) + 100]
    milliseconds after the start of the capture, where [d] is the
    decoded duration in seconds and the product, the ceiling and the
    sum are those of binary64; the start of the audio is scheduled at
    50 milliseconds, and that lead is not added to the delay of the
    stop. *)
Theorem stop_timer_is_duration_plus_100ms
    (p : Platform) (prompt : jsstring) (blob : Blob) (fps : Z) :
  snd (renderMergedAV p prompt (Some blob) fps) = inr tt ->
  exists d,
    decodeAudioData p blob = Some d
    /\ scheduledDelay StopRecorder (trace (renderMergedAV p prompt (Some blob) fps))
       = Some (mathCeil (d * 1000) + 100)%float
    /\ scheduledDelay StartSource (trace (renderMergedAV p prompt (Some blob) fps))
       = Some 50%float.
Proof.
  intros Hrun.
  destruct (renderMergedAV_cases p prompt blob fps) as [(e & He & _) | (d & Hd & E)].
  - rewrite He in Hrun. discriminate Hrun.
  - exists d. rewrite E. split; [exact Hd|]. split; reflexivity.
Qed.

Lemma stop_timer_three_seconds :
  snd (renderMergedAV (decodesTo 3) (lit "test") (Some []) 30) = inr tt
  /\ exists d,
       decodeAudioData (decodesTo 3) [] = Some d
       /\ scheduledDelay StopRecorder
            (trace (renderMergedAV (decodesTo 3) (lit "test") (Some []) 30))
          = Some (mathCeil (d * 1000) + 100)%float
       /\ scheduledDelay StartSource
            (trace (renderMergedAV (decodesTo 3) (lit "test") (Some []) 30))
          = Some 50%float.
Proof.
  split; [reflexivity|].
  apply (stop_timer_is_duration_plus_100ms (decodesTo 3) (lit "test") [] 30).
  reflexivity.
Defined.

(** C7 as stated fails: for three seconds of decoded audio the stop is
    scheduled at 3100 ms, not at 3000 + 50 + 100 = 3150 ms. *)
Lemma stop_timer_not_duration_plus_lead_plus_margin :
  scheduledDelay StopRecorder
    (trace (renderMergedAV (decodesTo 3) (lit "test") (Some []) 30))
  = Some 3100%float
  /\ scheduledDelay StopRecorder
       (trace (renderMergedAV (decodesTo 3) (lit "test") (Some []) 30))
     <> Some (3 * 1000 + 50 + 100)%float.
Proof.
  split; [reflexivity|].
  intros H.
  apply (f_equal (fun o => match o with
                           | Some x => PrimFloat.eqb x 3100
                           | None => false
                           end)) in H.
  vm_compute in H. discriminate H.
Qed.

(** The product is rounded to binary64 before the ceiling is taken:
    [4.03 * 1000] is [4030.0000000000005], and the stop is scheduled at
    4131 ms; the duration of 4410 frames at 44100 Hz, the binary64
    number next to one tenth, gives a product of exactly 100 and a stop
    at 200 ms. *)
Example stop_timer_rounds_the_product_first :
  scheduledDelay StopRecorder
    (trace (renderMergedAV (decodesTo 4.03) (lit "test") (Some []) 30))
  = Some 4131%float
  /\ scheduledDelay StopRecorder
       (trace (renderMergedAV (decodesTo (4410 / 44100)) (lit "test") (Some []) 30))
     = Some 200%float.
Proof. split; vm_compute; reflexivity. Qed.

(** C8, as the code has it: a merge asked for without an audio blob
    shows the alert 'Generate audio first.' and returns normally,
    nothing is thrown; it starts no audio context, no capture stream
    and no recorder.  The guard is the one of [mergeAndPreview]:
    [renderMergedAV] itself, called on [null], throws, and has by then
    made at most its audio context. *)
Theorem merge_without_audio_only_alerts
    (p : Platform) (prompt : jsstring) :
  mergeAndPreview p prompt None = ([Alert "Generate audio first."], inr tt)
  /\ (forall e, In e (trace (mergeAndPreview p prompt None)) ->
        startsCapture e = false)
  /\ (forall fps,
        (exists e, snd (renderMergedAV p prompt None fps) = inl e)
        /\ (refuses p NewAudioContext = None ->
            renderMergedAV p prompt None fps = ([NewAudioContext], inl TypeError))
        /\ forall e, In e (trace (renderMergedAV p prompt None fps)) ->
             e = NewAudioContext).
Proof.
  split; [reflexivity|]. split.
  - intros e [<- | []]. reflexivity.
  - intros fps. rewrite renderMergedAV_null_blob.
    destruct (refuses p NewAudioContext) as [e0|].
    + split; [eexists; reflexivity|]. split; [discriminate|]. intros e [].
    + split; [eexists; reflexivity|]. split; [reflexivity|].
      intros e [<- | []]. reflexivity.
Qed.

(** C8 as stated fails: without an audio blob the merge does not fail,
    it returns normally after its alert; and the driver named by the
    claim, called on [null], has started an audio context when it
    throws its [TypeError]. *)
Lemma merge_without_audio_does_not_fail :
  snd (mergeAndPreview (decodesTo 3) (lit "test") None) = inr tt
  /\ renderMergedAV (decodesTo 3) (lit "test") None 30
     = ([NewAudioContext], inl TypeError)
  /\ existsb startsCapture (trace (renderMergedAV (decodesTo 3) (lit "test") None 30))
     = true.
Proof. repeat split. Qed.

(** With a blob, in contrast, the capture is started. *)
Example merge_with_audio_starts_capture :
  In RecorderStart (trace (mergeAndPreview (decodesTo 8) (lit "test") (Some []))).
Proof. cbn. tauto. Qed.

End MergeFacts.

(** ** Master gain envelope *)

Module EnvelopeFacts.
Import Envelope.

Local Open Scope Q_scope.

(** For a render longer than two seconds the four events stand in the
    order of the calls. *)
Lemma masterGainTimeline_sorted (d : Q) :
  2 < d ->
  masterGainTimeline d
  = [ {| ev_kind := SetValue; ev_value := 0; ev_time := 0 |};
      {| ev_kind := LinearRamp; ev_value := 8 # 10; ev_time := 1 |};
      {| ev_kind := LinearRamp; ev_value := 6 # 10; ev_time := d - 1 |};
      {| ev_kind := LinearRamp; ev_value := 0; ev_time := d |} ].
Proof.
  intros Hd.
  unfold masterGainTimeline, linearRampToValueAtTime, setValueAtTime.
  cbn -[Qminus Qplus].
  repeat (match goal with
          | |- context [Qlt_le_dec ?a ?b] => destruct (Qlt_le_dec a b); cbn -[Qminus Qplus] in *
          end; try lra).
  reflexivity.
Qed.

Ltac split_time :=
  repeat match goal with
         | |- context [Qle_bool ?a ?b] =>
             let E := fresh "E" in
             destruct (Qle_bool a b) eqn:E;
             [apply Qle_bool_iff in E
             |assert (b < a) by (apply Qnot_le_lt; intros Hle;
                                 apply Qle_bool_iff in Hle; congruence); clear E]
         end.

Lemma masterGain_first_ramp d t :
  2 < d -> 0 <= t -> t < 1 -> masterGain d t == lerp 0 0 1 (8 # 10) t.
Proof.
  intros Hd H0 H1. unfold masterGain. rewrite (masterGainTimeline_sorted d Hd).
  unfold lerp. cbn -[Qminus Qplus Qmult Qdiv Qle_bool].
  split_time; try lra; reflexivity.
Qed.

Lemma masterGain_second_ramp d t :
  2 < d -> 1 <= t -> t < d - 1 -> masterGain d t == lerp 1 (8 # 10) (d - 1) (6 # 10) t.
Proof.
  intros Hd H0 H1. unfold masterGain. rewrite (masterGainTimeline_sorted d Hd).
  unfold lerp. cbn -[Qminus Qplus Qmult Qdiv Qle_bool].
  split_time; try lra; reflexivity.
Qed.

Lemma masterGain_third_ramp d t :
  2 < d -> d - 1 <= t -> t < d -> masterGain d t == lerp (d - 1) (6 # 10) d 0 t.
Proof.
  intros Hd H0 H1. unfold masterGain. rewrite (masterGainTimeline_sorted d Hd).
  unfold lerp. cbn -[Qminus Qplus Qmult Qdiv Qle_bool].
  split_time; try lra; reflexivity.
Qed.

Lemma masterGain_after d t :
  2 < d -> d <= t -> masterGain d t == 0.
Proof.
  intros Hd H0. unfold masterGain. rewrite (masterGainTimeline_sorted d Hd).
  cbn -[Qminus Qplus Qmult Qdiv Qle_bool].
  split_time; try lra; reflexivity.
Qed.

Lemma lerp_start t0 v0 t1 v1 : lerp t0 v0 t1 v1 t0 == v0.
Proof. unfold lerp, Qdiv. ring. Qed.

Lemma lerp_end t0 v0 t1 v1 : ~ t1 == t0 -> lerp t0 v0 t1 v1 t1 == v1.
Proof. intros Hne. unfold lerp. field. intros H. apply Hne. lra. Qed.

(** C5, for renders longer than two seconds: the master gain is 0 at
    [t = 0], 0.8 at one second, 0.6 one second before the end and 0 at
    the end, and lies on the straight line between each two of these
    points in turn. *)
Theorem masterGain_breakpoints_and_ramps (d : Q) :
  2 < d ->
  masterGain d 0 == 0
  /\ masterGain d 1 == 8 # 10
  /\ masterGain d (d - 1) == 6 # 10
  /\ masterGain d d == 0
  /\ (forall t, 0 <= t <= 1 -> masterGain d t == lerp 0 0 1 (8 # 10) t)
  /\ (forall t, 1 <= t <= d - 1 ->
        masterGain d t == lerp 1 (8 # 10) (d - 1) (6 # 10) t)
  /\ (forall t, d - 1 <= t <= d -> masterGain d t == lerp (d - 1) (6 # 10) d 0 t).
Proof.
  intros Hd.
  assert (H0 : masterGain d 0 == 0).
  { rewrite masterGain_first_ramp by lra. apply lerp_start. }
  assert (H1 : masterGain d 1 == 8 # 10).
  { rewrite masterGain_second_ramp by lra. apply lerp_start. }
  assert (H2 : masterGain d (d - 1) == 6 # 10).
  { rewrite masterGain_third_ramp by lra. apply lerp_start. }
  assert (H3 : masterGain d d == 0).
  { apply masterGain_after; lra. }
  repeat split; try assumption.
  - intros t [Ha Hb].
    destruct (Qlt_le_dec t 1) as [Hlt | Hge].
    + apply masterGain_first_ramp; assumption.
    + rewrite masterGain_second_ramp by lra.
      assert (Ht : t == 1) by lra.
      unfold lerp. rewrite Ht. field. lra.
  - intros t [Ha Hb].
    destruct (Qlt_le_dec t (d - 1)) as [Hlt | Hge].
    + apply masterGain_second_ramp; assumption.
    + rewrite masterGain_third_ramp by lra.
      assert (Ht : t == d - 1) by lra.
      unfold lerp. rewrite Ht. field. lra.
  - intros t [Ha Hb].
    destruct (Qlt_le_dec t d) as [Hlt | Hge].
    + apply masterGain_third_ramp; assumption.
    + rewrite masterGain_after by lra.
      assert (Ht : t == d) by lra.
      unfold lerp. rewrite Ht. field. lra.
Qed.

Lemma masterGain_eight_seconds :
  2 < 8
  /\ (masterGain 8 0 == 0
      /\ masterGain 8 1 == 8 # 10
      /\ masterGain 8 (8 - 1) == 6 # 10
      /\ masterGain 8 8 == 0
      /\ (forall t, 0 <= t <= 1 -> masterGain 8 t == lerp 0 0 1 (8 # 10) t)
      /\ (forall t, 1 <= t <= 8 - 1 ->
            masterGain 8 t == lerp 1 (8 # 10) (8 - 1) (6 # 10) t)
      /\ (forall t, 8 - 1 <= t <= 8 -> masterGain 8 t == lerp (8 - 1) (6 # 10) 8 0 t)).
Proof.
  split; [reflexivity|].
  apply (masterGain_breakpoints_and_ramps 8). reflexivity.
Defined.

(** C5 as stated fails at [d = 2]: the second and third call then name
    the same time, one second, and the later one decides the value
    there, 0.6 and not 0.8. *)
Lemma masterGain_two_seconds :
  2 <= 2
  /\ masterGain 2 1 == 6 # 10
  /\ ~ masterGain 2 1 == 8 # 10.
Proof.
  split; [discriminate|].
  split; [reflexivity | discriminate].
Qed.

End EnvelopeFacts.

(** ** Waveform encoder *)

Module WavFacts.
Import Wav.

(** *** The writes *)

Lemma length_leBytes n : forall v, List.length (leBytes n v) = n.
Proof. induction n as [|n IH]; intros v; simpl; [reflexivity | now rewrite IH]. Qed.

Lemma writeBytes_app bytes : forall pre old post,
  List.length old = List.length bytes ->
  writeBytes (pre ++ old ++ post) (List.length pre) bytes = pre ++ bytes ++ post.
Proof.
  induction bytes as [|b bytes IH]; intros pre old post Hlen.
  - destruct old; [reflexivity | discriminate].
  - destruct old as [|o old]; [discriminate|]. simpl in Hlen. injection Hlen as Hlen.
    simpl.
    replace (List.length pre) with (List.length pre + 0)%nat at 1 by lia.
    rewrite insert_app_r. simpl.
    replace (pre ++ b :: old ++ post) with ((pre ++ [b]) ++ old ++ post)
      by (rewrite <- app_assoc; reflexivity).
    replace (S (List.length pre)) with (List.length (pre ++ [b]))
      by (rewrite length_app; simpl; lia).
    rewrite IH by exact Hlen.
    rewrite <- app_assoc. reflexivity.
Qed.

Lemma setLE_app n pre old post v :
  List.length old = n ->
  setLE n (pre ++ old ++ post) (List.length pre) v = Some (pre ++ leBytes n v ++ post).
Proof.
  intros Hlen. unfold setLE.
  replace (_ <=? _)%nat with true.
  - rewrite writeBytes_app; [reflexivity | now rewrite length_leBytes].
  - symmetry. apply Nat.leb_le. rewrite !length_app. lia.
Qed.

Lemma writeString_app str : forall pre old post,
  List.length old = List.length str ->
  writeString (pre ++ old ++ post) (List.length pre) str
  = Some (pre ++ stringBytes str ++ post).
Proof.
  induction str as [|c str IH]; intros pre old post Hlen.
  - destruct old; [reflexivity | discriminate].
  - destruct old as [|o old]; [discriminate|]. simpl in Hlen. injection Hlen as Hlen.
    cbn [writeString]. unfold setUint8.
    change (pre ++ (o :: old) ++ post) with (pre ++ [o] ++ (old ++ post)).
    rewrite (setLE_app 1 pre [o] (old ++ post) c eq_refl).
    cbn [mbind option_bind leBytes app stringBytes map].
    replace (pre ++ c `mod` 256 :: old ++ post) with ((pre ++ [c `mod` 256]) ++ old ++ post)
      by (rewrite <- app_assoc; reflexivity).
    replace (S (List.length pre)) with (List.length (pre ++ [c `mod` 256]))
      by (rewrite length_app; simpl; lia).
    rewrite IH by exact Hlen.
    rewrite <- app_assoc. reflexivity.
Qed.

Lemma writePCM_app samples : forall pre,
  writePCM (pre ++ replicate (2 * List.length samples) 0) (List.length pre) samples
  = Some (pre ++ pcmBytes samples).
Proof.
  induction samples as [|x samples IH]; intros pre.
  - simpl. reflexivity.
  - cbn [writePCM]. unfold setInt16.
    replace (2 * List.length (x :: samples))%nat with (2 + 2 * List.length samples)%nat
      by (simpl; lia).
    rewrite replicate_add.
    rewrite (setLE_app 2 pre (replicate 2 0) _ _ eq_refl).
    cbn [mbind option_bind].
    rewrite app_assoc.
    replace (List.length pre + 2)%nat with (List.length (pre ++ leBytes 2 (toInt16 (scaled x))))
      by (rewrite length_app, length_leBytes; lia).
    rewrite IH. rewrite <- app_assoc. reflexivity.
Qed.

Lemma length_interleave_inner (c ch : nat) (channel : nat -> Q) frames : forall l,
  List.length (fold_left (fun interleaved i => <[(i * c + ch)%nat := channel i]> interleaved) frames l)
  = List.length l.
Proof.
  induction frames as [|i frames IH]; intros l; simpl; [reflexivity|].
  rewrite IH. apply length_insert.
Qed.

Lemma length_interleave buffer :
  List.length (interleave buffer)
  = (AudioBuffer.length buffer * AudioBuffer.numberOfChannels buffer)%nat.
Proof.
  unfold interleave.
  set (c := AudioBuffer.numberOfChannels buffer).
  set (n := AudioBuffer.length buffer).
  generalize (seq 0 c) as chans.
  assert (H : List.length (replicate (n * c) (0:Q)) = (n * c)%nat) by apply length_replicate.
  revert H. generalize (replicate (n * c) (0:Q)) as l.
  intros l H chans. revert l H.
  induction chans as [|ch chans IH]; intros l H; simpl; [exact H|].
  apply IH. rewrite length_interleave_inner. exact H.
Qed.

Lemma encode_closed_form buffer :
  audioBufferToWavBlob buffer
  = Some (wavHeader (AudioBuffer.numberOfChannels buffer) (AudioBuffer.sampleRate buffer)
            (AudioBuffer.length buffer)
          ++ pcmBytes (interleave buffer)).
Proof.
  unfold audioBufferToWavBlob.
  pose proof (length_interleave buffer) as Hlen.
  set (c := AudioBuffer.numberOfChannels buffer) in *.
  set (n := AudioBuffer.length buffer) in *.
  set (sr := AudioBuffer.sampleRate buffer).
  set (samples := interleave buffer) in *.
  rewrite replicate_add.
  replace (replicate (n * (c * 2)) 0) with (replicate (2 * List.length samples) 0)
    by (f_equal; lia).
  set (rest := replicate (2 * List.length samples) 0).
  cbn -[writePCM].
  exact (writePCM_app samples (wavHeader c sr n)).
Qed.

(** *** Reading back *)
Lemma fromLE_leBytes n : forall v, fromLE (leBytes n v) = v mod 2 ^ (8 * Z.of_nat n).
Proof.
  induction n as [|n IH]; intros v.
  - simpl. now rewrite Z.mod_1_r.
  - cbn [leBytes fromLE]. rewrite IH.
    replace (8 * Z.of_nat (S n)) with (8 + 8 * Z.of_nat n) by lia.
    rewrite Z.pow_add_r by lia.
    change (2 ^ 8) with 256.
    rewrite Z.rem_mul_r by lia. reflexivity.
Qed.

Lemma getLE_app n pre bytes post :
  List.length bytes = n ->
  getLE n (pre ++ bytes ++ post) (List.length pre) = Some (fromLE bytes).
Proof.
  intros Hlen. unfold getLE.
  replace (_ <=? _)%nat with true
    by (symmetry; apply Nat.leb_le; rewrite !length_app; lia).
  rewrite drop_app_length. rewrite <- Hlen, take_app_length. reflexivity.
Qed.

Lemma toInt16_range x : - 2^15 <= toInt16 x < 2^15.
Proof.
  unfold toInt16.
  pose proof (Z.mod_pos_bound (truncate x) (2^16) eq_refl).
  destruct (2^15 <=? _) eqn:E; [apply Z.leb_le in E | apply Z.leb_gt in E]; lia.
Qed.

Lemma toInt16_small x : - 2^15 <= truncate x < 2^15 -> toInt16 x = truncate x.
Proof.
  intros H. unfold toInt16.
  destruct (Z_lt_le_dec (truncate x) 0) as [Hneg | Hpos].
  - replace (truncate x mod 2^16) with (truncate x + 2^16).
    + destruct (2^15 <=? _) eqn:E; [lia | apply Z.leb_gt in E; lia].
    + apply (Z.mod_unique _ _ (-1)); lia.
  - rewrite Z.mod_small by lia.
    destruct (2^15 <=? _) eqn:E; [apply Z.leb_le in E; lia | reflexivity].
Qed.

Lemma getInt16_app pre v post :
  - 2^15 <= v < 2^15 ->
  getInt16 (pre ++ leBytes 2 v ++ post) (List.length pre) = Some v.
Proof.
  intros Hv. unfold getInt16.
  rewrite (getLE_app 2 pre (leBytes 2 v) post) by apply length_leBytes.
  cbn [mbind option_bind]. rewrite fromLE_leBytes.
  change (2 ^ (8 * Z.of_nat 2)) with (2^16).
  f_equal.
  destruct (Z_lt_le_dec v 0) as [Hneg | Hpos].
  - replace (v mod 2^16) with (v + 2^16)
      by (apply (Z.mod_unique _ _ (-1)); lia).
    destruct (2^15 <=? _) eqn:E; [lia | apply Z.leb_gt in E; lia].
  - rewrite Z.mod_small by lia.
    destruct (2^15 <=? _) eqn:E; [apply Z.leb_le in E; lia | reflexivity].
Qed.

Lemma length_pcmBytes samples : List.length (pcmBytes samples) = (2 * List.length samples)%nat.
Proof.
  induction samples as [|x samples IH]; [reflexivity|].
  unfold pcmBytes in *. cbn [flat_map]. rewrite length_app, IH, length_leBytes. simpl. lia.
Qed.

Lemma pcmBytes_app l1 l2 : pcmBytes (l1 ++ l2) = pcmBytes l1 ++ pcmBytes l2.
Proof. unfold pcmBytes. apply flat_map_app. Qed.

Lemma length_wavHeader c sr n : List.length (wavHeader c sr n) = 44%nat.
Proof. reflexivity. Qed.

(** The stored sample [k]. *)
Lemma getInt16_sample hdr (samples : list Q) k x :
  List.length hdr = 44%nat ->
  samples !! k = Some x ->
  getInt16 (hdr ++ pcmBytes samples) (44 + 2 * k) = Some (toInt16 (scaled x)).
Proof.
  intros Hh Hk.
  rewrite <- (take_drop_middle samples k x Hk).
  rewrite pcmBytes_app. change (x :: drop (S k) samples) with ([x] ++ drop (S k) samples).
  rewrite pcmBytes_app.
  change (pcmBytes [x]) with (leBytes 2 (toInt16 (scaled x)) ++ []).
  rewrite app_nil_r.
  rewrite (app_assoc hdr).
  replace (44 + 2 * k)%nat with (List.length (hdr ++ pcmBytes (take k samples))).
  - apply getInt16_app, toInt16_range.
  - rewrite length_app, length_pcmBytes, length_take, Hh.
    apply lookup_lt_Some in Hk. lia.
Qed.

Lemma interleave_index_inj (c i ch i' ch' : nat) :
  (ch < c)%nat -> (ch' < c)%nat -> (i * c + ch = i' * c + ch')%nat -> i = i' /\ ch = ch'.
Proof.
  intros Hch Hch' E.
  destruct (Nat.lt_trichotomy i i') as [Hlt | [-> | Hgt]].
  - assert (S i * c <= i' * c)%nat by (apply Nat.mul_le_mono_r; lia). simpl in *. lia.
  - split; [reflexivity | lia].
  - assert (S i' * c <= i * c)%nat by (apply Nat.mul_le_mono_r; lia). simpl in *. lia.
Qed.

Section Interleave.
Variables (c : nat) (getData : nat -> nat -> Q).

Let inner (ch : nat) (l : list Q) (m : nat) : list Q :=
  fold_left (fun interleaved i => <[(i * c + ch)%nat := getData ch i]> interleaved) (seq 0 m) l.

Lemma inner_miss ch j m : forall l,
  (forall i, (i < m)%nat -> j <> (i * c + ch)%nat) ->
  inner ch l m !! j = l !! j.
Proof.
  unfold inner. induction m as [|m IH]; intros l Hj; [reflexivity|].
  rewrite seq_S, fold_left_app. cbn [fold_left Nat.add].
  rewrite list_lookup_insert_ne by (intros E; apply (Hj m); lia).
  apply IH. intros i Hi. apply Hj. lia.
Qed.

Lemma inner_length ch m l : List.length (inner ch l m) = List.length l.
Proof. unfold inner. apply length_interleave_inner. Qed.

Lemma inner_hit ch i m : forall l,
  (ch < c)%nat -> (i < m)%nat -> (i * c + ch < List.length l)%nat ->
  inner ch l m !! (i * c + ch)%nat = Some (getData ch i).
Proof.
  induction m as [|m IH]; intros l Hch Hi Hlen; [lia|].
  unfold inner. rewrite seq_S, fold_left_app. cbn [fold_left Nat.add].
  fold (inner ch l m).
  destruct (decide (i = m)) as [-> | Hne].
  - apply list_lookup_insert_eq. now rewrite inner_length.
  - rewrite list_lookup_insert_ne
      by (intros E; destruct (interleave_index_inj c m ch i ch) as [? _]; [lia | lia | exact E | lia]).
    apply IH; [exact Hch | lia | exact Hlen].
Qed.

Lemma outer_lookup n ch i k : forall l,
  (k <= c)%nat -> (ch < k)%nat -> (i < n)%nat -> List.length l = (n * c)%nat ->
  fold_left (fun l ch => inner ch l n) (seq 0 k) l !! (i * c + ch)%nat
  = Some (getData ch i).
Proof.
  induction k as [|k IH]; intros l Hk Hch Hi Hlen; [lia|].
  rewrite seq_S, fold_left_app. cbn [fold_left Nat.add].
  set (l' := fold_left _ (seq 0 k) l).
  assert (Hlen' : List.length l' = (n * c)%nat).
  { subst l'. clear IH Hch. induction k as [|k IHk]; [exact Hlen|].
    rewrite seq_S, fold_left_app. cbn [fold_left Nat.add].
    rewrite inner_length. apply IHk. lia. }
  destruct (decide (ch = k)) as [-> | Hne].
  - apply inner_hit; [lia | exact Hi | rewrite Hlen'; nia].
  - rewrite inner_miss
      by (intros i' _ E; destruct (interleave_index_inj c i ch i' k) as [_ ?]; [lia | lia | exact E | lia]).
    apply IH; [lia | lia | exact Hi | exact Hlen].
Qed.

End Interleave.

Lemma interleave_lookup buffer ch i :
  (ch < AudioBuffer.numberOfChannels buffer)%nat ->
  (i < AudioBuffer.length buffer)%nat ->
  interleave buffer !! (i * AudioBuffer.numberOfChannels buffer + ch)%nat
  = Some (AudioBuffer.getChannelData buffer ch i).
Proof.
  intros Hch Hi. unfold interleave.
  apply (outer_lookup (AudioBuffer.numberOfChannels buffer)
           (AudioBuffer.getChannelData buffer) (AudioBuffer.length buffer));
    [lia | exact Hch | exact Hi | apply length_replicate].
Qed.

(** *** Samples *)
Local Open Scope Q_scope.

Lemma clamp_cases x :
  (x < -1 /\ clamp x == -1) \/ (-1 <= x <= 1 /\ clamp x == x) \/ (1 < x /\ clamp x == 1).
Proof.
  unfold clamp.
  destruct (Q.min_spec 1 x) as [[H1 E1] | [H1 E1]];
  destruct (Q.max_spec (-1) (Qmin 1 x)) as [[H2 E2] | [H2 E2]];
  rewrite E1 in *; lra.
Qed.

Lemma scaled_spec x : scaled x = spec_scaled x.
Proof.
  unfold scaled, spec_scaled.
  destruct (clamp_cases x) as [[H E] | [[H E] | [H E]]];
  destruct (Qlt_le_dec (clamp x) 0); destruct (Qlt_le_dec x 0); try reflexivity; lra.
Qed.

Lemma scaled_range x : -32768 <= scaled x <= 32767.
Proof.
  unfold scaled.
  destruct (clamp_cases x) as [[H E] | [[H E] | [H E]]];
  destruct (Qlt_le_dec (clamp x) 0); lra.
Qed.

Lemma inject_Z_le_inv a b : inject_Z a <= inject_Z b -> (a <= b)%Z.
Proof. intros H. rewrite Zle_Qle. exact H. Qed.

Lemma truncate_bounds x :
  (0 <= x -> inject_Z (truncate x) <= x /\ x < inject_Z (truncate x) + 1
             /\ (0 <= truncate x)%Z)
  /\ (x < 0 -> x <= inject_Z (truncate x) /\ inject_Z (truncate x) < x + 1
              /\ (truncate x <= 0)%Z).
Proof.
  unfold truncate. split; intros Hx; destruct (Qlt_le_dec x 0) as [Hneg | Hpos]; try lra.
  - pose proof (Qfloor_le x) as H1. pose proof (Qlt_floor x) as H2.
    rewrite inject_Z_plus in H2. change (inject_Z 1) with 1 in H2.
    repeat split; try assumption.
    change 0%Z with (Qfloor 0). apply Qfloor_resp_le, Hx.
  - pose proof (Qfloor_le (- x)) as H1. pose proof (Qlt_floor (- x)) as H2.
    rewrite inject_Z_plus in H2. change (inject_Z 1) with 1 in H2.
    rewrite inject_Z_opp.
    repeat split; try lra.
    assert (0 <= Qfloor (- x))%Z; [|lia].
    change 0%Z with (Qfloor 0). apply Qfloor_resp_le. lra.
Qed.

Lemma truncate_scaled_range x : (- 2^15 <= truncate (scaled x) < 2^15)%Z.
Proof.
  pose proof (scaled_range x) as [Hlo Hhi].
  destruct (truncate_bounds (scaled x)) as [Hpos Hneg].
  destruct (Qlt_le_dec (scaled x) 0) as [Hs | Hs].
  - destruct (Hneg Hs) as (H1 & H2 & H3).
    split; [|lia].
    apply inject_Z_le_inv. change (inject_Z (- 2^15)) with (-32768). lra.
  - destruct (Hpos Hs) as (H1 & H2 & H3).
    split; [lia|].
    assert (truncate (scaled x) <= 32767)%Z; [|lia].
    apply inject_Z_le_inv. change (inject_Z 32767) with 32767. lra.
Qed.

Lemma stored_sample x : toInt16 (scaled x) = truncate (spec_scaled x).
Proof.
  rewrite toInt16_small by apply truncate_scaled_range.
  now rewrite scaled_spec.
Qed.

Lemma roundtrip_error x :
  -1 <= x <= 1 ->
  Qabs (decodeSample (toInt16 (scaled x)) - x) <= 1 # 32767.
Proof.
  intros Hx.
  rewrite toInt16_small by apply truncate_scaled_range.
  destruct (truncate_bounds (scaled x)) as [Hpos Hneg].
  assert (Hc : clamp x == x).
  { destruct (clamp_cases x) as [[H E] | [[H E] | [H E]]]; lra. }
  apply Qabs_Qle_condition.
  unfold decodeSample.
  remember (truncate (scaled x)) as v eqn:Hv. clear Hv.
  unfold scaled in Hpos, Hneg.
  destruct (Qlt_le_dec (clamp x) 0) as [Hs | Hs].
  - destruct Hneg as (H1 & H2 & H3); [lra|].
    destruct (v <? 0)%Z eqn:Ev.
    + change (inject_Z v / 32768) with (inject_Z v * (1 # 32768)). lra.
    + apply Z.ltb_ge in Ev. assert (Hv : v = 0%Z) by lia. rewrite Hv in *.
      change (inject_Z 0 / 32767) with (0 * (1 # 32767)).
      change (inject_Z 0) with 0 in *. lra.
  - destruct Hpos as (H1 & H2 & H3); [lra|].
    destruct (v <? 0)%Z eqn:Ev; [apply Z.ltb_lt in Ev; lia|].
    change (inject_Z v / 32767) with (inject_Z v * (1 # 32767)). lra.
Qed.

Local Close Scope Q_scope.

(** *** The blob *)

(** The encoder always returns a blob, of [44 + n*c*2] bytes, whose
    32-bit field at offset 4 holds [36 + n*c*2] modulo [2^32]. *)
Lemma encode_length_and_riff buffer :
  let n := Z.of_nat (AudioBuffer.length buffer) in
  let c := Z.of_nat (AudioBuffer.numberOfChannels buffer) in
  exists blob,
    audioBufferToWavBlob buffer = Some blob
    /\ Z.of_nat (List.length blob) = 44 + n * c * 2
    /\ getUint32 blob 4 = Some ((36 + n * c * 2) mod 2^32).
Proof.
  intros n c. eexists. split; [apply encode_closed_form|]. split.
  - rewrite length_app, length_wavHeader, length_pcmBytes, length_interleave. lia.
  - unfold wavHeader. rewrite <- !app_assoc.
    unfold getUint32.
    rewrite (getLE_app 4 (stringBytes (lit "RIFF"))) by apply length_leBytes.
    rewrite fromLE_leBytes. do 2 f_equal. lia.
Qed.

(** The sample of channel [ch] and frame [i] is stored, as a signed
    little-endian 16-bit number, at offset [44 + 2*(i*c + ch)]. *)
Lemma encode_sample buffer ch i :
  (ch < AudioBuffer.numberOfChannels buffer)%nat ->
  (i < AudioBuffer.length buffer)%nat ->
  exists blob,
    audioBufferToWavBlob buffer = Some blob
    /\ getInt16 blob (44 + 2 * (i * AudioBuffer.numberOfChannels buffer + ch))
       = Some (toInt16 (scaled (AudioBuffer.getChannelData buffer ch i))).
Proof.
  intros Hch Hi. eexists. split; [apply encode_closed_form|].
  apply getInt16_sample; [reflexivity|].
  apply interleave_lookup; assumption.
Qed.

(** The header of the specification's example: a buffer of two
    channels and eight seconds at 44100 Hz, whatever its samples, gives
    a blob of [44 + 8*44100*2*2] bytes whose RIFF size field is
    [36 + 8*44100*2*2]. *)
Corollary wav_header_eight_seconds_stereo buffer :
  AudioBuffer.numberOfChannels buffer = 2%nat ->
  AudioBuffer.sampleRate buffer = 44100 ->
  AudioBuffer.length buffer = Z.to_nat (8 * 44100) ->
  exists blob,
    audioBufferToWavBlob buffer = Some blob
    /\ Z.of_nat (List.length blob) = 44 + 8 * 44100 * 2 * 2
    /\ getUint32 blob 4 = Some (36 + 8 * 44100 * 2 * 2).
Proof.
  intros Hc _ Hn.
  destruct (encode_length_and_riff buffer) as (blob & Hblob & Hlen & Hriff).
  exists blob. rewrite Hc, Hn, Z2Nat.id in Hlen, Hriff by lia.
  split; [exact Hblob|]. split; [exact Hlen|].
  rewrite Hriff. reflexivity.
Qed.

(** C1, within the reach of the 32-bit field: for [n] frames and [c]
    channels with [36 + n*c*2 < 2^32] the blob has exactly
    [44 + n*c*2] bytes and the little-endian 32-bit field at offset 4
    holds [36 + n*c*2]. *)
Theorem wav_length_and_riff_size (buffer : AudioBuffer.t) :
  let n := Z.of_nat (AudioBuffer.length buffer) in
  let c := Z.of_nat (AudioBuffer.numberOfChannels buffer) in
  36 + n * c * 2 < 2^32 ->
  exists blob,
    audioBufferToWavBlob buffer = Some blob
    /\ Z.of_nat (List.length blob) = 44 + n * c * 2
    /\ getUint32 blob 4 = Some (36 + n * c * 2).
Proof.
  intros n c Hfit.
  destruct (encode_length_and_riff buffer) as (blob & Hblob & Hlen & Hriff).
  exists blob. split; [exact Hblob|]. split; [exact Hlen|].
  rewrite Hriff. f_equal. apply Z.mod_small. subst n c. lia.
Qed.

Lemma wav_length_and_riff_size_stereo_8s :
  36 + Z.of_nat (AudioBuffer.length (silence 2 (Z.to_nat (8 * 44100))))
       * Z.of_nat (AudioBuffer.numberOfChannels (silence 2 (Z.to_nat (8 * 44100)))) * 2
    < 2^32
  /\ exists blob,
       audioBufferToWavBlob (silence 2 (Z.to_nat (8 * 44100))) = Some blob
       /\ Z.of_nat (List.length blob)
          = 44 + Z.of_nat (AudioBuffer.length (silence 2 (Z.to_nat (8 * 44100))))
                 * Z.of_nat (AudioBuffer.numberOfChannels
                               (silence 2 (Z.to_nat (8 * 44100)))) * 2
       /\ getUint32 blob 4
          = Some (36 + Z.of_nat (AudioBuffer.length (silence 2 (Z.to_nat (8 * 44100))))
                       * Z.of_nat (AudioBuffer.numberOfChannels
                                     (silence 2 (Z.to_nat (8 * 44100)))) * 2).
Proof.
  assert (H : 36 + Z.of_nat (AudioBuffer.length (silence 2 (Z.to_nat (8 * 44100))))
                   * Z.of_nat (AudioBuffer.numberOfChannels
                                 (silence 2 (Z.to_nat (8 * 44100)))) * 2 < 2^32).
  { unfold silence, AudioBuffer.length, AudioBuffer.numberOfChannels. lia. }
  split; [exact H|].
  apply (wav_length_and_riff_size (silence 2 (Z.to_nat (8 * 44100)))). exact H.
Defined.

Lemma silence_length c n : AudioBuffer.length (silence c n) = n.
Proof. reflexivity. Qed.

Lemma silence_channels c n : AudioBuffer.numberOfChannels (silence c n) = c.
Proof. reflexivity. Qed.

(** C1 as stated fails beyond that reach: for one channel of [2^31]
    frames the blob has [44 + 2^32] bytes and the field at offset 4
    holds 36, not [36 + 2^32]. *)
Lemma riff_size_wraps_at_4GiB :
  exists blob,
    audioBufferToWavBlob (silence 1 (Z.to_nat (2^31))) = Some blob
    /\ Z.of_nat (List.length blob) = 44 + 2^31 * 1 * 2
    /\ getUint32 blob 4 = Some 36
    /\ 36 <> 36 + 2^31 * 1 * 2.
Proof.
  destruct (encode_length_and_riff (silence 1 (Z.to_nat (2^31))))
    as (blob & Hblob & Hlen & Hriff).
  rewrite silence_length, silence_channels, Z2Nat.id in Hlen, Hriff by lia.
  exists blob. split; [exact Hblob|]. split; [exact Hlen|].
  split; [rewrite Hriff; reflexivity | lia].
Qed.

(** C2, as the code has it: the 16-bit value stored for a sample [s] is
    [clamp(s,-1,1) * (s<0 ? 32768 : 32767)] with its fractional part
    dropped, that is truncated towards zero by the conversion of
    [setInt16], and not rounded to the nearest integer; it is stored
    little-endian and signed at offset [44 + 2*(i*c + ch)]. *)
Theorem sample_is_scaled_and_truncated (buffer : AudioBuffer.t) (ch i : nat) :
  (ch < AudioBuffer.numberOfChannels buffer)%nat ->
  (i < AudioBuffer.length buffer)%nat ->
  exists blob,
    audioBufferToWavBlob buffer = Some blob
    /\ getInt16 blob (44 + 2 * (i * AudioBuffer.numberOfChannels buffer + ch))
       = Some (truncate (spec_scaled (AudioBuffer.getChannelData buffer ch i))).
Proof.
  intros Hch Hi.
  destruct (encode_sample buffer ch i Hch Hi) as (blob & Hblob & Hget).
  exists blob. split; [exact Hblob|].
  rewrite Hget, stored_sample. reflexivity.
Qed.

Lemma sample_is_scaled_and_truncated_small :
  (1 < AudioBuffer.numberOfChannels smallBuffer)%nat
  /\ (1 < AudioBuffer.length smallBuffer)%nat
  /\ exists blob,
       audioBufferToWavBlob smallBuffer = Some blob
       /\ getInt16 blob (44 + 2 * (1 * AudioBuffer.numberOfChannels smallBuffer + 1))
          = Some (truncate (spec_scaled (AudioBuffer.getChannelData smallBuffer 1 1))).
Proof.
  split; [simpl; lia|]. split; [simpl; lia|].
  apply (sample_is_scaled_and_truncated smallBuffer 1 1); simpl; lia.
Defined.

(** C2 as stated fails: the sample 0.25 scales to 8191.75, which
    rounds to 8192, and the encoder stores 8191. *)
Lemma quarter_sample_is_not_rounded :
  (audioBufferToWavBlob quarterBuffer ≫= fun blob => getInt16 blob 44) = Some 8191
  /\ round (spec_scaled (AudioBuffer.getChannelData quarterBuffer 0 0)) = 8192
  /\ (audioBufferToWavBlob quarterBuffer ≫= fun blob => getInt16 blob 44)
     <> Some (round (spec_scaled (AudioBuffer.getChannelData quarterBuffer 0 0))).
Proof.
  split; [vm_compute; reflexivity|].
  split; [vm_compute; reflexivity|].
  vm_compute. discriminate.
Qed.

(** C4: a sample in [-1, 1] that is encoded and read back (the
    little-endian 16-bit number at its place among the interleaved
    samples, divided by 32768 when negative and by 32767 otherwise)
    differs from the original by at most 1/32767. *)
Theorem wav_round_trip (buffer : AudioBuffer.t) (ch i : nat) :
  (ch < AudioBuffer.numberOfChannels buffer)%nat ->
  (i < AudioBuffer.length buffer)%nat ->
  (-1 <= AudioBuffer.getChannelData buffer ch i <= 1)%Q ->
  exists blob v,
    audioBufferToWavBlob buffer = Some blob
    /\ getInt16 blob (44 + 2 * (i * AudioBuffer.numberOfChannels buffer + ch)) = Some v
    /\ (Qabs (decodeSample v - AudioBuffer.getChannelData buffer ch i) <= 1 # 32767)%Q.
Proof.
  intros Hch Hi Hs.
  destruct (encode_sample buffer ch i Hch Hi) as (blob & Hblob & Hget).
  exists blob, (toInt16 (scaled (AudioBuffer.getChannelData buffer ch i))).
  split; [exact Hblob|]. split; [exact Hget|].
  apply roundtrip_error, Hs.
Qed.

Lemma wav_round_trip_small :
  (0 < AudioBuffer.numberOfChannels smallBuffer)%nat
  /\ (1 < AudioBuffer.length smallBuffer)%nat
  /\ (-1 <= AudioBuffer.getChannelData smallBuffer 0 1 <= 1)%Q
  /\ exists blob v,
       audioBufferToWavBlob smallBuffer = Some blob
       /\ getInt16 blob (44 + 2 * (1 * AudioBuffer.numberOfChannels smallBuffer + 0)) = Some v
       /\ (Qabs (decodeSample v - AudioBuffer.getChannelData smallBuffer 0 1) <= 1 # 32767)%Q.
Proof.
  split; [simpl; lia|]. split; [simpl; lia|].
  split; [split; vm_compute; discriminate|].
  apply (wav_round_trip smallBuffer 0 1); [simpl; lia | simpl; lia |].
  split; vm_compute; discriminate.
Defined.

(** The blob of the small buffer, byte by byte. *)
Example smallBuffer_blob :
  audioBufferToWavBlob smallBuffer
  = Some [82; 73; 70; 70; 48; 0; 0; 0; 87; 65; 86; 69; 102; 109; 116; 32;
          16; 0; 0; 0; 1; 0; 2; 0; 68; 172; 0; 0; 16; 177; 2; 0; 4; 0; 16; 0;
          100; 97; 116; 97; 12; 0; 0; 0;
          255; 31; 0; 128; 86; 213; 109; 91; 255; 127; 0; 0].
Proof. vm_compute. reflexivity. Qed.

End WavFacts.

(** * Further properties *)

(** ** The hasher and the palette *)

Module PaletteFacts.
Import Hash Params HashFacts ParamsFacts Palette.

Lemma hashString_accumulator str : hashString str = Z.abs (accumulator str).
Proof. reflexivity. Qed.

Lemma accumulator_range str : - 2^31 <= accumulator str < 2^31.
Proof. unfold accumulator. destruct (fold_step_spec str 0) as [_ H]; [lia | exact H]. Qed.

Lemma fold_spec_step_poly str : forall a b,
  - 2^31 <= a < 2^31 ->
  a mod 2^32 = b mod 2^32 ->
  fold_left spec_step str a
  = toInt32 (fold_left (fun acc code => acc * 31 + code) str b).
Proof.
  induction str as [|c str IH]; intros a b Ha Hab.
  - cbn [fold_left]. rewrite <- (toInt32_small a Ha). now apply toInt32_congr.
  - rewrite !fold_left_cons_eq.
    apply IH.
    + apply toInt32_range.
    + unfold spec_step. rewrite toInt32_eqm.
      rewrite (Zplus_mod (a * 31)), (Zplus_mod (b * 31)).
      rewrite (Zmult_mod a), (Zmult_mod b), Hab. reflexivity.
Qed.

(** X1: the wrap-around at every step of the loop changes nothing: the
    hash is the absolute value of the polynomial
    [c0*31^(n-1) + ... + c(n-1)] wrapped once to 32 bits. *)
Theorem hashString_is_wrapped_polynomial (str : jsstring) :
  hashString str = Z.abs (toInt32 (poly str)).
Proof.
  unfold hashString, poly.
  destruct (fold_step_spec str 0) as [-> _]; [lia|].
  rewrite (fold_spec_step_poly str 0 0); [reflexivity | lia | reflexivity].
Qed.

Lemma fold_step_app s t a :
  fold_left step (s ++ t) a = fold_left step t (fold_left step s a).
Proof. apply fold_left_app. Qed.

(** X2: the three audio parameters are functions of the accumulator of
    the prompt alone: two prompts on which the loop ends with the same
    accumulator get the same base frequency, detune and LFO rate,
    since the suffixes ['detune'] and ['lfo'] only continue the same fold. *)
Theorem parameters_follow_accumulator (p1 p2 : jsstring) :
  accumulator p1 = accumulator p2 ->
  baseFreq p1 = baseFreq p2
  /\ detuneCents p1 = detuneCents p2
  /\ lfoRate p1 = lfoRate p2.
Proof.
  intros E.
  assert (Hs : forall suffix, hashString (p1 ++ suffix) = hashString (p2 ++ suffix)).
  { intros suffix. unfold hashString. rewrite !fold_step_app.
    unfold accumulator in E. now rewrite E. }
  unfold baseFreq, detuneCents, lfoRate.
  rewrite !Hs.
  rewrite (hashString_accumulator p1), (hashString_accumulator p2), E.
  repeat split; reflexivity.
Qed.

Lemma parameters_follow_accumulator_collision :
  accumulator [1; 0] = accumulator [0; 31]
  /\ (baseFreq [1; 0] = baseFreq [0; 31]
      /\ detuneCents [1; 0] = detuneCents [0; 31]
      /\ lfoRate [1; 0] = lfoRate [0; 31]).
Proof.
  split; [reflexivity|].
  apply (parameters_follow_accumulator [1; 0] [0; 31]). reflexivity.
Defined.

Lemma jsrem_mod a b : 0 <= a -> 0 < b -> jsrem a b = a mod b.
Proof. intros Ha Hb. unfold jsrem. apply Z.rem_mod_nonneg; lia. Qed.

Lemma mod_of_mod_60 h m : 0 < m -> (m | 60) -> (h mod 60) mod m = h mod m.
Proof.
  intros Hm Hdiv. now apply Z.mod_mod_divide.
Qed.

Lemma below_cases (P : Z -> Prop) (n : nat) :
  (forall k : nat, (k < n)%nat -> P (Z.of_nat k)) ->
  forall z, 0 <= z < Z.of_nat n -> P z.
Proof.
  intros H z Hz. rewrite <- (Z2Nat.id z) by lia. apply H. lia.
Qed.

Lemma two_digits n : 10 <= n < 100 -> List.length (numberToString n) = 2%nat.
Proof.
  intros Hn.
  assert (H : 0 <= n - 10 < Z.of_nat 90) by lia.
  replace n with (10 + (n - 10)) by lia.
  revert H. generalize (n - 10).
  apply (below_cases (fun z => List.length (numberToString (10 + z)) = 2%nat) 90).
  intros k Hk.
  do 90 (destruct k as [|k]; [reflexivity|]). lia.
Qed.

(** The hue read from the array, for an index the remainder can give. *)
Lemma hue_lookup k :
  0 <= k < 6 ->
  hueToString [190; 195; 200; 205; 210; 215] k = numberToString (190 + 5 * k)
  /\ List.length (numberToString (190 + 5 * k)) = 3%nat.
Proof.
  apply (below_cases
           (fun z => hueToString [190; 195; 200; 205; 210; 215] z
                     = numberToString (190 + 5 * z)
                     /\ List.length (numberToString (190 + 5 * z)) = 3%nat) 6).
  intros n Hn.
  do 6 (destruct n as [|n]; [split; reflexivity|]). lia.
Qed.

(** X3: the array of hues is never read outside its bounds, so the
    colour is always of the form [hsl(H S% L%)] with
    [H = 190 + 5*(h mod 6)] one of the six hues, [S = 80 + h mod 20] in
    [80, 100) and [L = 45 + h mod 10] in [45, 55), where [h] is the hash
    of the prompt; the string has 16 code units. *)
Theorem palette_is_well_formed (prompt : jsstring) :
  let h := hashString prompt in
  let hue := 190 + 5 * (h mod 6) in
  let sat := 80 + h mod 20 in
  let light := 45 + h mod 10 in
  paletteFromPrompt prompt
  = lit "hsl(" ++ numberToString hue ++ lit " " ++ numberToString sat
    ++ lit "% " ++ numberToString light ++ lit "%)"
  /\ In hue [190; 195; 200; 205; 210; 215]
  /\ 80 <= sat < 100
  /\ 45 <= light < 55
  /\ List.length (paletteFromPrompt prompt) = 16%nat.
Proof.
  intros h hue sat light.
  pose proof (hashString_bounds prompt) as [Hh _]. fold h in Hh.
  pose proof (Z.mod_pos_bound h 6 eq_refl) as H6.
  pose proof (Z.mod_pos_bound h 20 eq_refl) as H20.
  pose proof (Z.mod_pos_bound h 10 eq_refl) as H10.
  destruct (hue_lookup (h mod 6) H6) as [Hhue Hlen].
  assert (E : paletteFromPrompt prompt
              = lit "hsl(" ++ numberToString hue ++ lit " " ++ numberToString sat
                ++ lit "% " ++ numberToString light ++ lit "%)").
  { unfold paletteFromPrompt, paletteOfHash. fold h.
    change (Z.of_nat (List.length [190; 195; 200; 205; 210; 215])) with 6.
    rewrite !jsrem_mod by lia. rewrite Hhue. reflexivity. }
  split; [exact E|].
  split.
  { subst hue. cbn [In].
    assert (h mod 6 = 0 \/ h mod 6 = 1 \/ h mod 6 = 2 \/ h mod 6 = 3
            \/ h mod 6 = 4 \/ h mod 6 = 5) as Hc by lia.
    lia. }
  split; [subst sat; lia|]. split; [subst light; lia|].
  rewrite E, !length_app.
  subst hue. rewrite Hlen.
  rewrite (two_digits sat) by (subst sat; lia).
  rewrite (two_digits light) by (subst light; lia).
  reflexivity.
Qed.

Lemma paletteOfHash_mod_60 h : 0 <= h -> paletteOfHash h = paletteOfHash (h mod 60).
Proof.
  intros Hh.
  pose proof (Z.mod_pos_bound h 60 eq_refl) as H60.
  unfold paletteOfHash.
  change (Z.of_nat (List.length [190; 195; 200; 205; 210; 215])) with 6.
  rewrite !jsrem_mod by lia.
  rewrite (mod_of_mod_60 h 6), (mod_of_mod_60 h 20), (mod_of_mod_60 h 10);
    try lia; try reflexivity.
  - exists 6. reflexivity.
  - exists 3. reflexivity.
  - exists 10. reflexivity.
Qed.

(** X4: the colour depends on the hash modulo 60 only, so there are at
    most sixty colours and not 6*20*10: hue, saturation and lightness
    are read off one number, and the lightness is fixed by the
    saturation, [L = 45 + (S - 80) mod 10]. *)
Theorem palette_follows_hash_mod_60 (p1 p2 : jsstring) :
  hashString p1 mod 60 = hashString p2 mod 60 ->
  paletteFromPrompt p1 = paletteFromPrompt p2
  /\ 45 + hashString p1 mod 10 = 45 + (80 + hashString p1 mod 20 - 80) mod 10.
Proof.
  intros E. split.
  - unfold paletteFromPrompt.
    rewrite (paletteOfHash_mod_60 (hashString p1)), (paletteOfHash_mod_60 (hashString p2)), E;
      [reflexivity | apply hashString_bounds | apply hashString_bounds].
  - f_equal. replace (80 + hashString p1 mod 20 - 80) with (hashString p1 mod 20) by lia.
    symmetry. apply Z.mod_mod_divide. exists 2. reflexivity.
Qed.

Lemma palette_follows_hash_mod_60_pair :
  hashString [0] mod 60 = hashString [60] mod 60
  /\ (paletteFromPrompt [0] = paletteFromPrompt [60]
      /\ 45 + hashString [0] mod 10 = 45 + (80 + hashString [0] mod 20 - 80) mod 10).
Proof.
  split; [reflexivity|].
  apply (palette_follows_hash_mod_60 [0] [60]). reflexivity.
Defined.

(** The colour of the default prompt. *)
Example palette_defaultPrompt :
  paletteFromPrompt Wrap.defaultPrompt = lit "hsl(215 93% 48%)".
Proof. vm_compute. reflexivity. Qed.

End PaletteFacts.

(** ** The blob of the encoder, field by field and sample by sample *)

Module WavMore.
Import Wav WavFacts WavRead.

Lemma getLE_drop n (blob : list Z) off bytes post :
  drop off blob = bytes ++ post ->
  List.length bytes = n -> (0 < n)%nat ->
  getLE n blob off = Some (fromLE bytes).
Proof.
  intros Hd Hn Hpos. unfold getLE.
  assert (Hlen : (off + n <= List.length blob)%nat).
  { assert (H := f_equal (@List.length Z) Hd).
    rewrite length_drop, length_app, Hn in H. lia. }
  replace (_ <=? _)%nat with true by (symmetry; now apply Nat.leb_le).
  rewrite Hd, <- Hn, take_app_length. reflexivity.
Qed.

Lemma header_field k off v c sr n rest :
  (0 < k)%nat ->
  drop off (wavHeader c sr n ++ rest)
  = leBytes k v ++ drop (off + k) (wavHeader c sr n ++ rest) ->
  getLE k (wavHeader c sr n ++ rest) off = Some (v mod 2 ^ (8 * Z.of_nat k)).
Proof.
  intros Hk H. rewrite (getLE_drop k _ off _ _ H (length_leBytes k v) Hk).
  now rewrite fromLE_leBytes.
Qed.

(** X5: every field of the 44-byte header reads back as written: the
    four tags, a format chunk of 16 bytes for PCM (format 1) with the
    channel count, the sample rate, a byte rate of sample rate times
    block align, a block align of two bytes per channel and 16 bits per
    sample, and a data size of two bytes per sample; exactly so as long
    as each number fits the width of its field. *)
Theorem wav_header_fields (buffer : AudioBuffer.t) :
  let c := Z.of_nat (AudioBuffer.numberOfChannels buffer) in
  let sr := AudioBuffer.sampleRate buffer in
  let n := Z.of_nat (AudioBuffer.length buffer) in
  c * 2 < 2^16 -> 0 <= sr < 2^32 -> sr * (c * 2) < 2^32 -> n * c * 2 < 2^32 ->
  exists blob,
    audioBufferToWavBlob buffer = Some blob
    /\ slice blob 0 4 = lit "RIFF"
    /\ slice blob 8 4 = lit "WAVE"
    /\ slice blob 12 4 = lit "fmt "
    /\ getUint32 blob 16 = Some 16
    /\ getUint16 blob 20 = Some 1
    /\ getUint16 blob 22 = Some c
    /\ getUint32 blob 24 = Some sr
    /\ getUint32 blob 28 = Some (sr * (c * 2))
    /\ getUint16 blob 32 = Some (c * 2)
    /\ getUint16 blob 34 = Some 16
    /\ slice blob 36 4 = lit "data"
    /\ getUint32 blob 40 = Some (n * c * 2).
Proof.
  intros c sr n Hc Hsr Hrate Hdata.
  eexists. split; [apply encode_closed_form|].
  fold sr. generalize (pcmBytes (interleave buffer)) as rest. intros rest.
  set (cn := AudioBuffer.numberOfChannels buffer) in *.
  set (fn := AudioBuffer.length buffer) in *.
  unfold getUint32, getUint16.
  repeat split; try reflexivity.
  - rewrite (header_field 2 22 (Z.of_nat cn)); [|lia|reflexivity].
    f_equal. apply Z.mod_small. subst c. change (2 ^ (8 * Z.of_nat 2)) with (2^16). lia.
  - rewrite (header_field 4 24 sr); [|lia|reflexivity].
    f_equal. apply Z.mod_small. change (2 ^ (8 * Z.of_nat 4)) with (2^32). lia.
  - rewrite (header_field 4 28 (sr * Z.of_nat (cn * 2))); [|lia|reflexivity].
    f_equal. rewrite Z.mod_small; [subst c; f_equal; lia|].
    change (2 ^ (8 * Z.of_nat 4)) with (2^32). subst c. nia.
  - rewrite (header_field 2 32 (Z.of_nat (cn * 2))); [|lia|reflexivity].
    f_equal. rewrite Z.mod_small; [subst c; lia|].
    change (2 ^ (8 * Z.of_nat 2)) with (2^16). subst c. lia.
  - rewrite (header_field 4 40 (Z.of_nat (fn * (cn * 2)))); [|lia|reflexivity].
    f_equal. rewrite Z.mod_small; [subst c n; lia|].
    change (2 ^ (8 * Z.of_nat 4)) with (2^32). subst c n. lia.
Qed.

Lemma wav_header_fields_small :
  Z.of_nat (AudioBuffer.numberOfChannels smallBuffer) * 2 < 2^16
  /\ 0 <= AudioBuffer.sampleRate smallBuffer < 2^32
  /\ AudioBuffer.sampleRate smallBuffer
     * (Z.of_nat (AudioBuffer.numberOfChannels smallBuffer) * 2) < 2^32
  /\ Z.of_nat (AudioBuffer.length smallBuffer)
     * Z.of_nat (AudioBuffer.numberOfChannels smallBuffer) * 2 < 2^32
  /\ exists blob,
       audioBufferToWavBlob smallBuffer = Some blob
       /\ slice blob 0 4 = lit "RIFF"
       /\ slice blob 8 4 = lit "WAVE"
       /\ slice blob 12 4 = lit "fmt "
       /\ getUint32 blob 16 = Some 16
       /\ getUint16 blob 20 = Some 1
       /\ getUint16 blob 22 = Some (Z.of_nat (AudioBuffer.numberOfChannels smallBuffer))
       /\ getUint32 blob 24 = Some (AudioBuffer.sampleRate smallBuffer)
       /\ getUint32 blob 28
          = Some (AudioBuffer.sampleRate smallBuffer
                  * (Z.of_nat (AudioBuffer.numberOfChannels smallBuffer) * 2))
       /\ getUint16 blob 32
          = Some (Z.of_nat (AudioBuffer.numberOfChannels smallBuffer) * 2)
       /\ getUint16 blob 34 = Some 16
       /\ slice blob 36 4 = lit "data"
       /\ getUint32 blob 40
          = Some (Z.of_nat (AudioBuffer.length smallBuffer)
                  * Z.of_nat (AudioBuffer.numberOfChannels smallBuffer) * 2).
Proof.
  split; [simpl; lia|]. split; [simpl; lia|]. split; [simpl; lia|]. split; [simpl; lia|].
  apply (wav_header_fields smallBuffer); simpl; lia.
Defined.

Lemma Forall_leBytes n : forall v, Forall (fun b => 0 <= b < 256) (leBytes n v).
Proof.
  induction n as [|n IH]; intros v; cbn [leBytes]; constructor.
  - apply Z.mod_pos_bound. lia.
  - apply IH.
Qed.

Lemma Forall_stringBytes str : Forall (fun b => 0 <= b < 256) (stringBytes str).
Proof.
  unfold stringBytes. apply Forall_map, Forall_forall. intros c _.
  apply Z.mod_pos_bound. lia.
Qed.

Lemma Forall_pcmBytes samples : Forall (fun b => 0 <= b < 256) (pcmBytes samples).
Proof.
  induction samples as [|x samples IH]; [constructor|].
  change (pcmBytes (x :: samples))
    with (leBytes 2 (toInt16 (scaled x)) ++ pcmBytes samples).
  apply Forall_app. split; [apply Forall_leBytes | exact IH].
Qed.

(** X6: the encoder always returns a blob, never a [RangeError], and
    every element of the blob is a byte. *)
Theorem wav_blob_is_bytes (buffer : AudioBuffer.t) :
  exists blob,
    audioBufferToWavBlob buffer = Some blob
    /\ Forall (fun b => 0 <= b < 256) blob.
Proof.
  eexists. split; [apply encode_closed_form|].
  apply Forall_app. split; [|apply Forall_pcmBytes].
  unfold wavHeader.
  repeat (apply Forall_app; split);
    first [apply Forall_stringBytes | apply Forall_leBytes].
Qed.

(** *** Stored samples *)

Lemma storedSample_eq buffer ch i :
  (ch < AudioBuffer.numberOfChannels buffer)%nat ->
  (i < AudioBuffer.length buffer)%nat ->
  storedSample buffer ch i
  = Some (toInt16 (scaled (AudioBuffer.getChannelData buffer ch i))).
Proof.
  intros Hch Hi. unfold storedSample.
  destruct (encode_sample buffer ch i Hch Hi) as (blob & -> & Hget).
  exact Hget.
Qed.

Local Open Scope Q_scope.

Lemma truncate_int x z : x == inject_Z z -> truncate x = z.
Proof.
  intros E. unfold truncate.
  destruct (Qlt_le_dec x 0) as [Hneg | Hpos].
  - assert (E' : - x == inject_Z (- z)) by (rewrite inject_Z_opp; lra).
    rewrite (Qfloor_comp _ _ E'), Qfloor_Z. lia.
  - rewrite (Qfloor_comp _ _ E), Qfloor_Z. reflexivity.
Qed.

Lemma truncate_mono x y : x <= y -> (truncate x <= truncate y)%Z.
Proof.
  intros Hxy.
  destruct (truncate_bounds x) as [Hxp Hxn].
  destruct (truncate_bounds y) as [Hyp Hyn].
  destruct (Qlt_le_dec x 0) as [Hx | Hx]; destruct (Qlt_le_dec y 0) as [Hy | Hy].
  - unfold truncate.
    destruct (Qlt_le_dec x 0); [|lra]. destruct (Qlt_le_dec y 0); [|lra].
    assert (Qfloor (- y) <= Qfloor (- x))%Z by (apply Qfloor_resp_le; lra). lia.
  - destruct (Hxn Hx) as (_ & _ & ?). destruct (Hyp Hy) as (_ & _ & ?). lia.
  - lra.
  - unfold truncate.
    destruct (Qlt_le_dec x 0); [lra|]. destruct (Qlt_le_dec y 0); [lra|].
    now apply Qfloor_resp_le.
Qed.

Lemma scaled_mono x y : x <= y -> scaled x <= scaled y.
Proof.
  intros Hxy. unfold scaled.
  destruct (clamp_cases x) as [[Hx Ex] | [[Hx Ex] | [Hx Ex]]];
  destruct (clamp_cases y) as [[Hy Ey] | [[Hy Ey] | [Hy Ey]]];
  destruct (Qlt_le_dec (clamp x) 0); destruct (Qlt_le_dec (clamp y) 0); lra.
Qed.

Lemma stored_value_small x : toInt16 (scaled x) = truncate (scaled x).
Proof. apply toInt16_small, truncate_scaled_range. Qed.

(** X8: samples beyond full scale saturate and do not wrap around:
    a sample of 1 or more is stored as 32767 and a sample of -1 or less
    as -32768. *)
Theorem samples_beyond_full_scale_saturate (buffer : AudioBuffer.t) (ch i : nat) :
  (ch < AudioBuffer.numberOfChannels buffer)%nat ->
  (i < AudioBuffer.length buffer)%nat ->
  (1 <= AudioBuffer.getChannelData buffer ch i ->
   storedSample buffer ch i = Some 32767%Z)
  /\ (AudioBuffer.getChannelData buffer ch i <= -1 ->
      storedSample buffer ch i = Some (-32768)%Z).
Proof.
  intros Hch Hi. rewrite (storedSample_eq buffer ch i Hch Hi), stored_value_small.
  set (s := AudioBuffer.getChannelData buffer ch i).
  split; intros Hs; f_equal; apply truncate_int; unfold scaled;
    destruct (clamp_cases s) as [[H E] | [[H E] | [H E]]];
    destruct (Qlt_le_dec (clamp s) 0);
    try lra;
    change (inject_Z 32767) with 32767; change (inject_Z (-32768)) with (-32768);
    lra.
Qed.

Lemma samples_beyond_full_scale_saturate_loud :
  (0 < AudioBuffer.numberOfChannels loudBuffer)%nat
  /\ (0 < AudioBuffer.length loudBuffer)%nat
  /\ (1 <= AudioBuffer.getChannelData loudBuffer 0 0 ->
      storedSample loudBuffer 0 0 = Some 32767%Z)
  /\ (AudioBuffer.getChannelData loudBuffer 0 0 <= -1 ->
      storedSample loudBuffer 0 0 = Some (-32768)%Z).
Proof.
  split; [simpl; lia|]. split; [simpl; lia|].
  apply (samples_beyond_full_scale_saturate loudBuffer 0 0); simpl; lia.
Defined.

(** X9: the conversion keeps the order of samples: of two samples, the
    smaller one is never stored as the larger 16-bit number. *)
Theorem stored_samples_are_monotone
    (buffer buffer' : AudioBuffer.t) (ch i ch' i' : nat) :
  (ch < AudioBuffer.numberOfChannels buffer)%nat ->
  (i < AudioBuffer.length buffer)%nat ->
  (ch' < AudioBuffer.numberOfChannels buffer')%nat ->
  (i' < AudioBuffer.length buffer')%nat ->
  AudioBuffer.getChannelData buffer ch i <= AudioBuffer.getChannelData buffer' ch' i' ->
  exists v v',
    storedSample buffer ch i = Some v
    /\ storedSample buffer' ch' i' = Some v'
    /\ (v <= v')%Z.
Proof.
  intros Hch Hi Hch' Hi' Hle.
  do 2 eexists. split; [apply storedSample_eq; assumption|].
  split; [apply storedSample_eq; assumption|].
  rewrite !stored_value_small. apply truncate_mono, scaled_mono, Hle.
Qed.

Lemma between_is_zero v : -1 < inject_Z v -> inject_Z v < 1 -> v = 0%Z.
Proof.
  intros H1 H2.
  change (-1) with (inject_Z (-1)) in H1. change 1 with (inject_Z 1) in H2.
  rewrite <- Zlt_Qlt in H1, H2. lia.
Qed.

Lemma dead_zone s :
  (truncate (scaled s) = 0%Z <-> - (1 # 32768) < s < 1 # 32767)
  /\ (0 <= s -> (0 <= truncate (scaled s))%Z)
  /\ (s <= 0 -> (truncate (scaled s) <= 0)%Z).
Proof.
  destruct (truncate_bounds (scaled s)) as [Hpos Hneg].
  remember (truncate (scaled s)) as v eqn:Hv. clear Hv.
  unfold scaled in Hpos, Hneg.
  assert (Hz0 : inject_Z 0 == 0) by reflexivity.
  assert (Hsign : (v <= 0)%Z -> inject_Z v <= 0)
    by (intros; change 0 with (inject_Z 0); rewrite <- Zle_Qle; lia).
  assert (Hsign' : (0 <= v)%Z -> 0 <= inject_Z v)
    by (intros; change 0 with (inject_Z 0); rewrite <- Zle_Qle; lia).
  destruct (clamp_cases s) as [[H E] | [[H E] | [H E]]];
  destruct (Qlt_le_dec (clamp s) 0) as [Hc | Hc]; try lra;
  first [destruct Hneg as (H1 & H2 & H3); [lra|] | destruct Hpos as (H1 & H2 & H3); [lra|]];
  first [specialize (Hsign H3) | specialize (Hsign' H3)];
  (split; [split; [intros Hv0; subst v; rewrite Hz0 in *; split; lra
                  | intros [Ha Hb]; apply between_is_zero; lra]
          | split; intros Hs; try lia;
            try (assert (v = 0%Z) by (apply between_is_zero; lra); lia);
            exfalso; lra]).
Qed.

(** X10: truncation gives the stored zero a wider band than any other
    value: a sample is stored as 0 exactly when it lies strictly
    between -1/32768 and 1/32767, and the stored number never has the
    opposite sign of the sample. *)
Theorem small_samples_are_stored_as_zero (buffer : AudioBuffer.t) (ch i : nat) :
  (ch < AudioBuffer.numberOfChannels buffer)%nat ->
  (i < AudioBuffer.length buffer)%nat ->
  exists v,
    storedSample buffer ch i = Some v
    /\ (v = 0%Z <-> - (1 # 32768) < AudioBuffer.getChannelData buffer ch i < 1 # 32767)
    /\ (0 <= AudioBuffer.getChannelData buffer ch i -> (0 <= v)%Z)
    /\ (AudioBuffer.getChannelData buffer ch i <= 0 -> (v <= 0)%Z).
Proof.
  intros Hch Hi. eexists. split; [apply storedSample_eq; assumption|].
  rewrite stored_value_small. apply dead_zone.
Qed.

Lemma truncate_unique x z :
  0 <= x -> inject_Z z <= x -> x < inject_Z z + 1 -> truncate x = z.
Proof.
  intros Hx Hlo Hhi.
  destruct (truncate_bounds x) as [Hpos _].
  destruct (Hpos Hx) as (H1 & H2 & _).
  assert (A : inject_Z (truncate x) < inject_Z (z + 1))
    by (rewrite inject_Z_plus; change (inject_Z 1) with 1; lra).
  assert (B : inject_Z z < inject_Z (truncate x + 1))
    by (rewrite inject_Z_plus; change (inject_Z 1) with 1; lra).
  rewrite <- Zlt_Qlt in A, B. lia.
Qed.

Lemma sampleStoredAs_dyadic v :
  (-32768 <= v <= 32767)%Z ->
  exists k, (- 2^15 <= k <= 2^15)%Z /\ sampleStoredAs v == inject_Z k / inject_Z (2^15).
Proof.
  intros Hv. unfold sampleStoredAs.
  destruct (v <? 0)%Z.
  - exists v. split; [lia | reflexivity].
  - exists (v + 1)%Z. split; [lia | reflexivity].
Qed.

Lemma encode_sampleStoredAs x v :
  (-32768 <= v <= 32767)%Z -> x == sampleStoredAs v -> toInt16 (scaled x) = v.
Proof.
  intros Hv Hx. rewrite stored_value_small.
  assert (H1 : -32768 <= inject_Z v)
    by (change (-32768) with (inject_Z (-32768)); rewrite <- Zle_Qle; lia).
  assert (H2 : inject_Z v <= 32767)
    by (change 32767 with (inject_Z 32767); rewrite <- Zle_Qle; lia).
  revert Hx. unfold sampleStoredAs.
  destruct (v <? 0)%Z eqn:Ev; intros Hx.
  - apply Z.ltb_lt in Ev.
    assert (Hn : inject_Z v <= -1)
      by (change (-1) with (inject_Z (-1)); rewrite <- Zle_Qle; lia).
    change (inject_Z v / 32768) with (inject_Z v * (1 # 32768)) in Hx.
    apply truncate_int. unfold scaled.
    destruct (clamp_cases x) as [[H E] | [[H E] | [H E]]]; try lra.
    destruct (Qlt_le_dec (clamp x) 0); lra.
  - apply Z.ltb_ge in Ev.
    assert (Hp : 0 <= inject_Z v) by (change 0 with (inject_Z 0); rewrite <- Zle_Qle; lia).
    rewrite inject_Z_plus in Hx. change (inject_Z 1) with 1 in Hx.
    change ((inject_Z v + 1) / 32768) with ((inject_Z v + 1) * (1 # 32768)) in Hx.
    unfold scaled.
    destruct (clamp_cases x) as [[H E] | [[H E] | [H E]]]; try lra.
    destruct (Qlt_le_dec (clamp x) 0); [lra|].
    apply truncate_unique; lra.
Qed.

(** X11: every 16-bit number is the stored form of a sample that a
    [Float32Array] can hold: the sample [v / 32768] for a negative [v]
    and [(v + 1) / 32768] otherwise, both multiples of [2^-15] within
    [-1, 1], is stored as [v]. *)
Theorem every_int16_is_stored_for_a_float32_sample
    (buffer : AudioBuffer.t) (ch i : nat) (v : Z) :
  (ch < AudioBuffer.numberOfChannels buffer)%nat ->
  (i < AudioBuffer.length buffer)%nat ->
  (-32768 <= v <= 32767)%Z ->
  AudioBuffer.getChannelData buffer ch i == sampleStoredAs v ->
  storedSample buffer ch i = Some v
  /\ exists k, (- 2^15 <= k <= 2^15)%Z
       /\ AudioBuffer.getChannelData buffer ch i == inject_Z k / inject_Z (2^15).
Proof.
  intros Hch Hi Hv Hs. split.
  - rewrite (storedSample_eq buffer ch i Hch Hi). f_equal.
    now apply encode_sampleStoredAs.
  - destruct (sampleStoredAs_dyadic v Hv) as (k & Hk & E).
    exists k. split; [exact Hk|]. now rewrite Hs.
Qed.

Local Close Scope Q_scope.

Lemma frameMajor_rows c (data : nat -> nat -> Q) n :
  List.length (flat_map (fun i => map (fun ch => data ch i) (seq 0 c)) (seq 0 n))
  = (n * c)%nat
  /\ forall i ch, (i < n)%nat -> (ch < c)%nat ->
       flat_map (fun i => map (fun ch => data ch i) (seq 0 c)) (seq 0 n)
         !! (i * c + ch)%nat = Some (data ch i).
Proof.
  induction n as [|n [IHlen IH]].
  - split; [reflexivity | intros; lia].
  - rewrite seq_S, flat_map_app. cbn [flat_map Nat.add]. rewrite app_nil_r.
    split.
    + rewrite length_app, IHlen, length_map, length_seq. lia.
    + intros i ch Hi Hch.
      destruct (decide (i = n)) as [-> | Hne].
      * rewrite lookup_app_r by (rewrite IHlen; lia).
        rewrite IHlen. replace (n * c + ch - n * c)%nat with ch by lia.
        rewrite list_lookup_fmap, lookup_seq_lt by exact Hch. reflexivity.
      * rewrite lookup_app_l by (rewrite IHlen; nia).
        apply IH; [lia | exact Hch].
Qed.

Lemma interleave_frameMajor buffer : interleave buffer = frameMajor buffer.
Proof.
  unfold frameMajor.
  destruct (frameMajor_rows (AudioBuffer.numberOfChannels buffer)
              (AudioBuffer.getChannelData buffer) (AudioBuffer.length buffer))
    as [Hlen Hrows].
  pose proof (length_interleave buffer) as Hlen'.
  apply list_eq. intros k.
  destruct (decide (k < AudioBuffer.length buffer * AudioBuffer.numberOfChannels buffer)%nat)
    as [Hk | Hk].
  - assert (Hc : (0 < AudioBuffer.numberOfChannels buffer)%nat) by nia.
    pose proof (Nat.div_mod_eq k (AudioBuffer.numberOfChannels buffer)) as Hdm.
    pose proof (Nat.mod_upper_bound k (AudioBuffer.numberOfChannels buffer) ltac:(lia))
      as Hmod.
    assert (Hi : (k / AudioBuffer.numberOfChannels buffer < AudioBuffer.length buffer)%nat)
      by (apply Nat.Div0.div_lt_upper_bound; lia).
    replace k with ((k / AudioBuffer.numberOfChannels buffer)
                    * AudioBuffer.numberOfChannels buffer
                    + k mod AudioBuffer.numberOfChannels buffer)%nat at 1 2 by lia.
    rewrite (Hrows _ _ Hi Hmod).
    apply interleave_lookup; assumption.
  - rewrite !lookup_ge_None_2; [reflexivity | lia | lia].
Qed.

(** X7: the blob is the header followed by the samples frame by
    frame, and channel by channel within a frame, two bytes each: the
    two nested loops over channels and frames write every sample once
    and leave no gap. *)
Theorem wav_blob_closed_form (buffer : AudioBuffer.t) :
  audioBufferToWavBlob buffer
  = Some (wavHeader (AudioBuffer.numberOfChannels buffer)
            (AudioBuffer.sampleRate buffer) (AudioBuffer.length buffer)
          ++ flat_map (fun x => leBytes 2 (toInt16 (scaled x))) (frameMajor buffer)).
Proof.
  rewrite encode_closed_form, interleave_frameMajor. reflexivity.
Qed.

(** X12: a buffer without frames or without channels is encoded as
    the bare header: 44 bytes, a RIFF size of 36 and a data size of 0. *)
Theorem empty_buffer_gives_header_only (buffer : AudioBuffer.t) :
  AudioBuffer.length buffer = 0%nat \/ AudioBuffer.numberOfChannels buffer = 0%nat ->
  exists blob,
    audioBufferToWavBlob buffer = Some blob
    /\ List.length blob = 44%nat
    /\ getUint32 blob 4 = Some 36
    /\ getUint32 blob 40 = Some 0.
Proof.
  intros Hempty.
  assert (Hz : (AudioBuffer.length buffer * AudioBuffer.numberOfChannels buffer = 0)%nat)
    by (destruct Hempty as [-> | ->]; lia).
  pose proof (length_interleave buffer) as Hlen. rewrite Hz in Hlen.
  apply nil_length_inv in Hlen.
  eexists. split; [apply encode_closed_form|].
  rewrite Hlen. unfold getUint32.
  split; [reflexivity|]. split.
  - rewrite (header_field 4 4 (36 + Z.of_nat (AudioBuffer.length buffer
                                          * (AudioBuffer.numberOfChannels buffer * 2))));
      [|lia|reflexivity].
    f_equal. replace (Z.of_nat _) with 0 by nia. reflexivity.
  - rewrite (header_field 4 40 (Z.of_nat (AudioBuffer.length buffer
                                          * (AudioBuffer.numberOfChannels buffer * 2))));
      [|lia|reflexivity].
    f_equal. replace (Z.of_nat _) with 0 by nia. reflexivity.
Qed.

Lemma empty_buffer_gives_header_only_stereo :
  (AudioBuffer.length (silence 2 0) = 0%nat
   \/ AudioBuffer.numberOfChannels (silence 2 0) = 0%nat)
  /\ exists blob,
       audioBufferToWavBlob (silence 2 0) = Some blob
       /\ List.length blob = 44%nat
       /\ getUint32 blob 4 = Some 36
       /\ getUint32 blob 40 = Some 0.
Proof.
  split; [left; reflexivity|].
  apply (empty_buffer_gives_header_only (silence 2 0)). left. reflexivity.
Defined.

Lemma stored_samples_are_monotone_small :
  (0 < AudioBuffer.numberOfChannels smallBuffer)%nat
  /\ (1 < AudioBuffer.length smallBuffer)%nat
  /\ (1 < AudioBuffer.numberOfChannels loudBuffer)%nat
  /\ (0 < AudioBuffer.length loudBuffer)%nat
  /\ (AudioBuffer.getChannelData smallBuffer 0 1
      <= AudioBuffer.getChannelData loudBuffer 1 0)%Q
  /\ exists v v',
       storedSample smallBuffer 0 1 = Some v
       /\ storedSample loudBuffer 1 0 = Some v'
       /\ v <= v'.
Proof.
  split; [simpl; lia|]. split; [simpl; lia|]. split; [simpl; lia|]. split; [simpl; lia|].
  split; [vm_compute; discriminate|].
  apply (stored_samples_are_monotone smallBuffer loudBuffer 0 1 1 0);
    [simpl; lia | simpl; lia | simpl; lia | simpl; lia | vm_compute; discriminate].
Defined.

Lemma small_samples_are_stored_as_zero_loud :
  (1 < AudioBuffer.numberOfChannels loudBuffer)%nat
  /\ (1 < AudioBuffer.length loudBuffer)%nat
  /\ exists v,
       storedSample loudBuffer 1 1 = Some v
       /\ (v = 0 <-> (- (1 # 32768) < AudioBuffer.getChannelData loudBuffer 1 1 < 1 # 32767)%Q)
       /\ ((0 <= AudioBuffer.getChannelData loudBuffer 1 1)%Q -> 0 <= v)
       /\ ((AudioBuffer.getChannelData loudBuffer 1 1 <= 0)%Q -> v <= 0).
Proof.
  split; [simpl; lia|]. split; [simpl; lia|].
  apply (small_samples_are_stored_as_zero loudBuffer 1 1); simpl; lia.
Defined.

Lemma every_int16_is_stored_for_a_float32_sample_1234 :
  (0 < AudioBuffer.numberOfChannels (dyadicBuffer 1234))%nat
  /\ (0 < AudioBuffer.length (dyadicBuffer 1234))%nat
  /\ -32768 <= 1234 <= 32767
  /\ (AudioBuffer.getChannelData (dyadicBuffer 1234) 0 0 == sampleStoredAs 1234)%Q
  /\ storedSample (dyadicBuffer 1234) 0 0 = Some 1234
  /\ exists k, - 2^15 <= k <= 2^15
       /\ (AudioBuffer.getChannelData (dyadicBuffer 1234) 0 0
           == inject_Z k / inject_Z (2^15))%Q.
Proof.
  split; [simpl; lia|]. split; [simpl; lia|]. split; [lia|]. split; [reflexivity|].
  apply (every_int16_is_stored_for_a_float32_sample (dyadicBuffer 1234) 0 0 1234);
    [simpl; lia | simpl; lia | lia | reflexivity].
Defined.

End WavMore.

(** ** What the word wrap keeps *)

Module WrapMore.
Import Wrap WrapFacts WrapLines.

Lemma wrapText_allLines text maxWidth context :
  wrapText text maxWidth context = take 4 (allLines text maxWidth context).
Proof.
  unfold wrapText, allLines. destruct (fold_left _ _ _) as [lines current]. reflexivity.
Qed.

Lemma split_not_nil text : split text <> [].
Proof.
  destruct text as [|c rest]; simpl; [discriminate|].
  destruct (c =? space); [discriminate|].
  destruct (split rest); discriminate.
Qed.

Lemma split_app_space a b : split (a ++ space :: b) = split a ++ split b.
Proof.
  induction a as [|c a IH]; simpl.
  - reflexivity.
  - destruct (c =? space) eqn:Ec.
    + now rewrite IH.
    + rewrite IH. destruct (split a) as [|w ws] eqn:Es; [now apply split_not_nil in Es|].
      reflexivity.
Qed.

Lemma split_word w : ~ In space w -> split w = [w].
Proof.
  induction w as [|c w IH]; intros Hw; simpl; [reflexivity|].
  destruct (c =? space) eqn:Ec.
  - apply Z.eqb_eq in Ec. exfalso. apply Hw. now left.
  - rewrite IH by (intros H; apply Hw; now right). reflexivity.
Qed.

Lemma nonEmptyWords_app_space a b :
  nonEmptyWords (a ++ space :: b) = nonEmptyWords a ++ nonEmptyWords b.
Proof. unfold nonEmptyWords. now rewrite split_app_space, List.filter_app. Qed.

Lemma nonEmptyWords_word w : ~ In space w -> nonEmptyWords w = List.filter truthy [w].
Proof. intros Hw. unfold nonEmptyWords. now rewrite split_word. Qed.

Lemma nonEmptyWords_nil : nonEmptyWords [] = [].
Proof. reflexivity. Qed.

Section Words.
Variables (maxWidth : Q) (context : Context).

Lemma step_words lines current w :
  ~ In space w ->
  flat_map nonEmptyWords (fst (step maxWidth context (lines, current) w))
  ++ nonEmptyWords (snd (step maxWidth context (lines, current) w))
  = (flat_map nonEmptyWords lines ++ nonEmptyWords current) ++ List.filter truthy [w].
Proof.
  intros Hw. unfold step.
  destruct (truthy current) eqn:Ecur.
  - rewrite andb_true_r. destruct (gt _ maxWidth); cbn [fst snd].
    + rewrite flat_map_app. cbn [flat_map]. rewrite app_nil_r.
      rewrite (nonEmptyWords_word w Hw), <- app_assoc. reflexivity.
    + change (current ++ [space] ++ w) with (current ++ space :: w).
      rewrite nonEmptyWords_app_space, (nonEmptyWords_word w Hw), <- app_assoc.
      reflexivity.
  - rewrite andb_false_r. cbn [fst snd].
    apply truthy_false in Ecur. subst current.
    rewrite nonEmptyWords_nil, app_nil_r, (nonEmptyWords_word w Hw). reflexivity.
Qed.

Lemma fold_step_words ws : forall st,
  (forall w, In w ws -> ~ In space w) ->
  flat_map nonEmptyWords (fst (fold_left (step maxWidth context) ws st))
  ++ nonEmptyWords (snd (fold_left (step maxWidth context) ws st))
  = (flat_map nonEmptyWords (fst st) ++ nonEmptyWords (snd st)) ++ List.filter truthy ws.
Proof.
  induction ws as [|w ws IH]; intros [lines current] Hws.
  - cbn [fold_left List.filter]. now rewrite app_nil_r.
  - cbn [fold_left]. rewrite IH by (intros w' Hw'; apply Hws; now right).
    destruct (step maxWidth context (lines, current) w) as [lines' current'] eqn:Es.
    pose proof (step_words lines current w (Hws w (or_introl eq_refl))) as H.
    rewrite Es in H. cbn [fst snd] in *. rewrite H, <- !app_assoc.
    change (w :: ws) with ([w] ++ ws). now rewrite List.filter_app.
Qed.

End Words.

Lemma allLines_words text maxWidth context :
  flat_map nonEmptyWords (allLines text maxWidth context) = nonEmptyWords text.
Proof.
  unfold allLines.
  pose proof (fold_step_words maxWidth context (split text) ([], [])
                (split_no_space text)) as H.
  destruct (fold_left _ _ _) as [lines current]. cbn [fst snd flat_map app] in H.
  rewrite nonEmptyWords_nil in H. cbn [app] in H.
  fold (nonEmptyWords text) in H. rewrite <- H.
  destruct (truthy current) eqn:Ecur.
  - rewrite flat_map_app. cbn [flat_map]. now rewrite app_nil_r.
  - apply truthy_false in Ecur. subst current. now rewrite nonEmptyWords_nil, app_nil_r.
Qed.

(** X13: wrapping neither drops, nor reorders, nor splits a word: the
    non-empty words of the lines before the cap, read in order, are
    the non-empty words of the text; the four lines returned hold a
    prefix of them, and all of them when the cap does not cut. *)
Theorem wrapText_keeps_the_words (text : jsstring) (maxWidth : Q) (context : Context) :
  flat_map nonEmptyWords (allLines text maxWidth context) = nonEmptyWords text
  /\ (exists dropped,
        nonEmptyWords text
        = flat_map nonEmptyWords (wrapText text maxWidth context) ++ dropped)
  /\ ((List.length (allLines text maxWidth context) <= 4)%nat ->
      flat_map nonEmptyWords (wrapText text maxWidth context) = nonEmptyWords text).
Proof.
  pose proof (allLines_words text maxWidth context) as H.
  rewrite wrapText_allLines.
  split; [exact H|]. split.
  - exists (flat_map nonEmptyWords (drop 4 (allLines text maxWidth context))).
    rewrite <- flat_map_app, take_drop. now symmetry.
  - intros Hlen. now rewrite take_ge by exact Hlen.
Qed.

(** The lines before the cap satisfy what the capped ones do. *)
Lemma allLines_Forall text maxWidth context :
  Forall (fun line => line <> [] /\ fits maxWidth context (split text) line)
         (allLines text maxWidth context).
Proof.
  unfold allLines.
  pose proof (fold_step_loopInv maxWidth context (split text) (split text) ([], [])
                (fun _ H => H)) as Hinv.
  destruct (fold_left _ _ _) as [lines current].
  destruct Hinv as [Hlines Hcur]; [split; simpl; [constructor | now left]|].
  simpl in *.
  destruct (truthy current) eqn:Ecur; [|exact Hlines].
  apply truthy_true in Ecur.
  apply Forall_app; split; [exact Hlines|].
  destruct Hcur as [Hcur | Hcur]; [congruence|].
  constructor; [split; assumption | constructor].
Qed.

Lemma first_word text :
  ~ In space text \/ exists a b, text = a ++ space :: b /\ ~ In space a.
Proof.
  induction text as [|c text IH].
  - left. intros [].
  - destruct (Z.eq_dec c space) as [-> | Hc].
    + right. exists [], text. split; [reflexivity | intros []].
    + destruct IH as [Hno | (a & b & -> & Ha)].
      * left. intros [E | H]; [now apply Hc | now apply Hno].
      * right. exists (c :: a), b. split; [reflexivity|].
        intros [E | H]; [now apply Hc | now apply Ha].
Qed.

Lemma word_no_wider context :
  monotone context ->
  forall n text, (List.length text <= n)%nat ->
  forall w, In w (split text) -> (context w <= context text)%Q.
Proof.
  intros Hmono. induction n as [|n IH]; intros text Hlen w Hw.
  - destruct text; [|simpl in Hlen; lia]. destruct Hw as [<- | []]. apply Qle_refl.
  - destruct (first_word text) as [Hno | (a & b & -> & Ha)].
    + rewrite (split_word text Hno) in Hw. destruct Hw as [<- | []]. apply Qle_refl.
    + rewrite split_app_space, (split_word a Ha) in Hw.
      destruct (Hmono a b) as [Hl Hr].
      destruct Hw as [<- | Hw]; [exact Hl|].
      apply Qle_trans with (context b); [|exact Hr].
      apply IH; [|exact Hw]. rewrite length_app in Hlen. simpl in Hlen. lia.
Qed.

Lemma In_take {A} (x : A) n : forall l, In x (take n l) -> In x l.
Proof.
  induction n as [|n IH]; intros [|y l] H; simpl in *; try contradiction.
  destruct H as [-> | H]; [now left | right; now apply IH].
Qed.

(** X14: under a measure that never makes a text narrower than one of
    its two parts around a space, a word wider than the maximum is
    never joined with another word: a returned line that holds such a
    word is that word. *)
Theorem wide_word_stands_alone (text : jsstring) (maxWidth : Q) (context : Context) :
  monotone context ->
  forall line w,
    In line (wrapText text maxWidth context) ->
    In w (split line) -> (maxWidth < context w)%Q ->
    line = w.
Proof.
  intros Hmono line w Hline Hw Hwide.
  rewrite wrapText_allLines in Hline.
  assert (Hin : In line (allLines text maxWidth context)).
  { now apply In_take in Hline. }
  pose proof (allLines_Forall text maxWidth context) as HF.
  rewrite List.Forall_forall in HF.
  destruct (HF line Hin) as [_ [Hfit | [Hword _]]].
  - exfalso.
    pose proof (word_no_wider context Hmono _ line (Nat.le_refl _) w Hw) as Hle.
    apply (Qlt_not_le _ _ Hwide). apply Qle_trans with (context line); assumption.
  - rewrite (split_word line (split_no_space text line Hword)) in Hw.
    destruct Hw as [<- | []]. reflexivity.
Qed.

Lemma monospace10_monotone : monotone monospace10.
Proof.
  intros a b. unfold monospace10. rewrite <- !Zle_Qle, length_app. simpl. lia.
Qed.

Lemma wide_word_stands_alone_defaultPrompt :
  monotone monospace10
  /\ forall line w,
       In line (wrapText defaultPrompt 100 monospace10) ->
       In w (split line) -> (100 < monospace10 w)%Q ->
       line = w.
Proof.
  split; [exact monospace10_monotone|].
  apply (wide_word_stands_alone defaultPrompt 100 monospace10). exact monospace10_monotone.
Defined.

(** *** Forced breaks *)

Section Breaks.
Variables (maxWidth : Q) (context : Context) (words : list jsstring).

Lemma lookup_snoc_pair (l : list jsstring) (x : jsstring) i a b :
  (l ++ [x]) !! i = Some a -> (l ++ [x]) !! S i = Some b ->
  (l !! i = Some a /\ l !! S i = Some b) \/ (last l = Some a /\ b = x).
Proof.
  intros Ha Hb.
  destruct (decide (S i < List.length l)%nat) as [Hlt | Hge].
  - left. rewrite lookup_app_l in Ha by lia. rewrite lookup_app_l in Hb by lia. auto.
  - right.
    assert (Hi : S i = List.length l).
    { apply lookup_lt_Some in Hb. rewrite length_app in Hb. simpl in Hb. lia. }
    rewrite lookup_app_l in Ha by lia.
    rewrite Hi, lookup_app_r in Hb by lia.
    replace (List.length l - List.length l)%nat with O in Hb by lia.
    injection Hb as <-. split; [|reflexivity].
    rewrite last_lookup. rewrite <- Hi. exact Ha.
Qed.

Lemma step_breaksInv st w :
  In w words ->
  breaksInv maxWidth context words st ->
  breaksInv maxWidth context words (step maxWidth context st w).
Proof.
  intros Hw. destruct st as [lines current]. intros [Hadj Hlast].
  cbn [fst snd] in *. unfold step.
  destruct (truthy current) eqn:Ecur.
  - rewrite andb_true_r.
    destruct (gt _ maxWidth) eqn:Egt; split; cbn [fst snd].
    + intros i a b Ha Hb.
      destruct (lookup_snoc_pair _ _ _ _ _ Ha Hb) as [[Ha' Hb'] | [Ha' ->]].
      * eapply Hadj; eauto.
      * now apply Hlast.
    + intros a Ha. rewrite last_snoc in Ha. injection Ha as <-.
      exists w, []. split; [now rewrite app_nil_r|]. split; [exact Hw|].
      apply gt_true in Egt. exact Egt.
    + exact Hadj.
    + intros a Ha. destruct (Hlast a Ha) as (w0 & rest & -> & Hw0 & Hwide).
      exists w0, (rest ++ [space] ++ w). split; [now rewrite <- app_assoc|]. auto.
  - rewrite andb_false_r. apply truthy_false in Ecur. subst current.
    split; cbn [fst snd]; [exact Hadj|].
    intros a Ha. destruct (Hlast a Ha) as (w0 & rest & E & Hw0 & Hwide).
    symmetry in E. apply app_eq_nil in E. destruct E as [-> ->].
    exists [], w. split; [reflexivity|]. auto.
Qed.

Lemma fold_step_breaksInv ws : forall st,
  (forall w, In w ws -> In w words) ->
  breaksInv maxWidth context words st ->
  breaksInv maxWidth context words (fold_left (step maxWidth context) ws st).
Proof.
  induction ws as [|w ws IH]; intros st Hsub Hinv; [exact Hinv|].
  cbn [fold_left]. apply IH; [intros w' Hw'; apply Hsub; now right|].
  apply step_breaksInv; [apply Hsub; now left | exact Hinv].
Qed.

End Breaks.

Lemma allLines_breaks text maxWidth context i a b :
  allLines text maxWidth context !! i = Some a ->
  allLines text maxWidth context !! S i = Some b ->
  forcedBreak maxWidth context (split text) a b.
Proof.
  unfold allLines.
  pose proof (fold_step_breaksInv maxWidth context (split text) (split text) ([], [])
                (fun _ H => H)) as Hinv.
  destruct (fold_left _ _ _) as [lines current].
  destruct Hinv as [Hadj Hlast].
  { split; cbn [fst snd]; [intros ? ? ? H; discriminate H | intros ? H; discriminate H]. }
  cbn [fst snd] in *.
  destruct (truthy current); intros Ha Hb.
  - destruct (lookup_snoc_pair _ _ _ _ _ Ha Hb) as [[Ha' Hb'] | [Ha' ->]].
    + eapply Hadj; eauto.
    + now apply Hlast.
  - eapply Hadj; eauto.
Qed.

(** X15: the wrap is greedy: between two consecutive returned lines
    the break was forced, the second line starting with a word of the
    text (possibly the empty word between two spaces) that, added to
    the first line after a space, is wider than the maximum. *)
Theorem line_breaks_are_forced
    (text : jsstring) (maxWidth : Q) (context : Context) (i : nat) (a b : jsstring) :
  wrapText text maxWidth context !! i = Some a ->
  wrapText text maxWidth context !! S i = Some b ->
  forcedBreak maxWidth context (split text) a b.
Proof.
  rewrite wrapText_allLines. intros Ha Hb.
  apply lookup_take_Some in Ha. apply lookup_take_Some in Hb.
  apply (allLines_breaks text maxWidth context i); tauto.
Qed.

Lemma line_breaks_are_forced_defaultPrompt :
  wrapText defaultPrompt 100 monospace10 !! 0%nat = Some (lit "A dark")
  /\ wrapText defaultPrompt 100 monospace10 !! 1%nat = Some (lit "biomechanical")
  /\ forcedBreak 100 monospace10 (split defaultPrompt) (lit "A dark") (lit "biomechanical").
Proof.
  split; [reflexivity|]. split; [reflexivity|].
  apply (line_breaks_are_forced defaultPrompt 100 monospace10 0); reflexivity.
Defined.

End WrapMore.

(** ** The frame loops and the recorded chunks *)

Module CaptureFacts.
Import Capture.


(** X16: the capture of a video is stopped exactly once, by the first
    frame whose elapsed time is not below the target: every frame
    before it is drawn and asks for a next one, that frame is still
    drawn, and no later timestamp is looked at; so the capture never
    ends before the target duration. *)
Theorem drawLoop_stops_once_at_first_late_frame
    (start seconds : float) (before : list float) (t : float) (after : list float) :
  Forall (fun t => continues start seconds t = true) before ->
  continues start seconds t = false ->
  drawLoop start seconds (before ++ t :: after)
  = flat_map (fun t => [DrawFrame (elapsedAt start t); RequestFrame]) before
    ++ [DrawFrame (elapsedAt start t); StopCapture].
Proof.
  intros Hbefore Ht.
  induction Hbefore as [|t0 before Ht0 _ IH].
  - cbn [app drawLoop flat_map]. unfold continues in Ht. rewrite Ht. reflexivity.
  - cbn [app drawLoop flat_map]. unfold continues in Ht0. rewrite Ht0, IH. reflexivity.
Qed.

Lemma drawLoop_stops_once_at_first_late_frame_1s :
  Forall (fun t => continues 1000 1 t = true) [1016; 1500; 1999]%float
  /\ continues 1000 1 2000 = false
  /\ drawLoop 1000 1 ([1016; 1500; 1999] ++ 2000 :: [2016; 2033])%float
     = flat_map (fun t => [DrawFrame (elapsedAt 1000 t); RequestFrame])
                [1016; 1500; 1999]%float
       ++ [DrawFrame (elapsedAt 1000 2000); StopCapture].
Proof.
  assert (H : Forall (fun t => continues 1000 1 t = true) [1016; 1500; 1999]%float)
    by (repeat constructor).
  split; [exact H|]. split; [reflexivity|].
  apply (drawLoop_stops_once_at_first_late_frame 1000 1 [1016; 1500; 1999]%float
           2000%float [2016; 2033]%float H).
  reflexivity.
Defined.


(** X18: the frame loop of the merge never stops the recorder, in the
    merge only the timer does: every frame whose elapsed time is below
    the decoded duration is drawn and asks for a next one, the first
    frame that is not is still drawn and asks for nothing, and no later
    timestamp is looked at. *)
Theorem mergeDrawLoop_never_stops_the_recorder
    (start duration : float) (ts : list float) :
  ~ In StopCapture (mergeDrawLoop start duration ts)
  /\ (Forall (fun t => continues start duration t = true) ts ->
      mergeDrawLoop start duration ts
      = flat_map (fun t => [DrawMergedFrame (elapsedAt start t); RequestFrame]) ts)
  /\ (forall before t after,
        ts = before ++ t :: after ->
        Forall (fun t => continues start duration t = true) before ->
        continues start duration t = false ->
        mergeDrawLoop start duration ts
        = flat_map (fun t => [DrawMergedFrame (elapsedAt start t); RequestFrame]) before
          ++ [DrawMergedFrame (elapsedAt start t)]).
Proof.
  split; [|split].
  - induction ts as [|t ts IH]; [intros []|].
    cbn [mergeDrawLoop]. destruct (PrimFloat.ltb _ duration).
    + intros [E | [E | E]]; [discriminate | discriminate | now apply IH].
    + intros [E | []]. discriminate.
  - induction 1 as [|t ts Ht _ IH]; [reflexivity|].
    cbn [mergeDrawLoop flat_map]. unfold continues in Ht. rewrite Ht, IH. reflexivity.
  - intros before t after -> Hbefore Ht.
    induction Hbefore as [|t0 before Ht0 _ IH].
    + cbn [app mergeDrawLoop flat_map]. unfold continues in Ht. rewrite Ht. reflexivity.
    + cbn [app mergeDrawLoop flat_map]. unfold continues in Ht0. rewrite Ht0, IH.
      reflexivity.
Qed.

(** A merge of one second of audio: the frame at 2000 ms is the last
    one drawn, and nothing stops the recorder. *)
Example mergeDrawLoop_one_second :
  mergeDrawLoop 1000 1 sampleTimestamps
  = [DrawMergedFrame 0.016; RequestFrame; DrawMergedFrame 0.5; RequestFrame;
     DrawMergedFrame 0.999; RequestFrame; DrawMergedFrame 1]%float.
Proof. vm_compute. reflexivity. Qed.

Lemma fold_onDataAvailable events : forall chunks,
  fold_left onDataAvailable events chunks
  = chunks ++ List.filter (fun data => negb (List.length data =? 0)%nat) events.
Proof.
  induction events as [|data events IH]; intros chunks; cbn [fold_left List.filter].
  - now rewrite app_nil_r.
  - rewrite IH. unfold onDataAvailable.
    destruct (List.length data =? 0)%nat; cbn [negb]; [reflexivity|].
    now rewrite <- app_assoc.
Qed.

(** X19: the recorded blob is the concatenation of the data of all
    events in the order of their arrival; leaving out the empty chunks
    loses no byte, and no kept chunk is empty. *)
Theorem recordedBlob_is_all_data_in_order (events : list (list Z)) :
  recordedBlob events = concat events
  /\ fold_left onDataAvailable events []
     = List.filter (fun data => negb (List.length data =? 0)%nat) events
  /\ Forall (fun chunk => chunk <> []) (fold_left onDataAvailable events []).
Proof.
  unfold recordedBlob. rewrite fold_onDataAvailable. cbn [app].
  split; [|split; [reflexivity|]].
  - induction events as [|data events IH]; [reflexivity|].
    cbn [List.filter concat].
    destruct data as [|b data]; cbn [List.length Nat.eqb negb app concat].
    + exact IH.
    + rewrite IH. reflexivity.
  - apply List.Forall_forall. intros chunk Hin.
    apply List.filter_In in Hin. destruct Hin as [_ H].
    destruct chunk; [discriminate | discriminate].
Qed.


End CaptureFacts.

(** ** The outcomes of the merge *)

Module MergeMore.
Import Merge MergeFacts.

Lemma forallb_not_In {A} (f : A -> bool) (l : list A) (x : A) :
  forallb f l = true -> f x = false -> ~ In x l.
Proof.
  intros Hall Hx Hin.
  rewrite forallb_forall in Hall. specialize (Hall x Hin). congruence.
Qed.

Lemma last_of_three {A} (x : A) (t : list A) (a b c : A) :
  last (x :: t ++ [a; b; c]) = Some c.
Proof.
  change (x :: t ++ [a; b; c]) with ((x :: t) ++ [a; b] ++ [c]).
  rewrite app_assoc. apply last_snoc.
Qed.

(** X21: with an audio blob the merge never throws and always resets
    the loading state: its first effect sets it to ['merge'], its last
    to [''].  When the driver throws, whatever call of the browser
    refused, the error is logged and reported by the alert, after the
    effects of the driver so far; the recorder was not started, no
    timer was set and no merged blob is set.  When the driver returns,
    the recorder was started, the merged blob is set, the scroll is
    scheduled and nothing is alerted. *)
Theorem merge_outcomes
    (p : Platform) (prompt : jsstring) (blob : Blob) :
  snd (mergeAndPreview p prompt (Some blob)) = inr tt
  /\ head (trace (mergeAndPreview p prompt (Some blob))) = Some (SetLoading "merge")
  /\ last (trace (mergeAndPreview p prompt (Some blob))) = Some (SetLoading "")
  /\ (forall e, snd (renderMergedAV p prompt (Some blob) 30) = inl e ->
        trace (mergeAndPreview p prompt (Some blob))
        = SetLoading "merge" :: trace (renderMergedAV p prompt (Some blob) 30)
          ++ [ConsoleError e; Alert "Merge failed. Please try again."; SetLoading ""]
        /\ ~ In RecorderStart (trace (mergeAndPreview p prompt (Some blob)))
        /\ ~ In SetMergedBlob (trace (mergeAndPreview p prompt (Some blob)))
        /\ forall cb delay,
             ~ In (SetTimeout cb delay) (trace (mergeAndPreview p prompt (Some blob))))
  /\ (snd (renderMergedAV p prompt (Some blob) 30) = inr tt ->
        trace (mergeAndPreview p prompt (Some blob))
        = SetLoading "merge" :: trace (renderMergedAV p prompt (Some blob) 30)
          ++ [SetMergedBlob; SetTimeout ScrollToPreview 100; SetLoading ""]
        /\ In RecorderStart (trace (mergeAndPreview p prompt (Some blob)))
        /\ forall msg, ~ In (Alert msg) (trace (mergeAndPreview p prompt (Some blob)))).
Proof.
  rewrite mergeAndPreview_with_blob.
  destruct (renderMergedAV_cases p prompt blob 30) as [(e & He & Hs) | (d & Hd & E)].
  - destruct (renderMergedAV p prompt (Some blob) 30) as [t r].
    cbn [snd trace fst] in *. subst r.
    split; [reflexivity|]. split; [reflexivity|].
    split; [apply last_of_three|].
    split; [|discriminate].
    intros e' [= <-]. split; [reflexivity|].
    assert (Hno : forall x, isSetup x = false ->
              x <> SetLoading "merge" -> x <> ConsoleError e ->
              x <> Alert "Merge failed. Please try again." -> x <> SetLoading "" ->
              ~ In x (SetLoading "merge" :: t
                        ++ [ConsoleError e; Alert "Merge failed. Please try again.";
                            SetLoading ""])).
    { intros x Hx N1 N2 N3 N4 [H | H]; [congruence|].
      apply in_app_or in H. destruct H as [H | H].
      - exact (forallb_not_In _ _ _ Hs Hx H).
      - destruct H as [H | [H | [H | []]]]; congruence. }
    split; [apply Hno; [reflexivity | discriminate..]|].
    split; [apply Hno; [reflexivity | discriminate..]|].
    intros cb delay. apply Hno; [reflexivity | discriminate..].
  - rewrite E. cbn [snd trace fst].
    split; [reflexivity|]. split; [reflexivity|]. split; [reflexivity|].
    split; [discriminate|]. intros _.
    split; [reflexivity|]. split; [cbn; tauto|].
    intros msg H. cbn in H.
    repeat (destruct H as [H | H]; [discriminate H|]). exact H.
Qed.

(** In a browser without a recorder for VP9 and Opus in WebM the merge
    ends in the alert; the audio context and the capture stream made
    before are left as they are, and no timer is set. *)
Example merge_without_vp9_opus :
  mergeAndPreview (withoutVp9Opus 3) (lit "test") (Some [])
  = ([SetLoading "merge"; NewAudioContext; ReadArrayBuffer; DecodeAudioData;
      CreateCanvas 720 1280; CreateMediaStreamDestination; CreateBufferSource;
      ConnectToRecording; ConnectToSpeakers; NewMediaStream; CaptureStream 30;
      AddVideoTracks; AddAudioTracks;
      ConsoleError NotSupportedError; Alert "Merge failed. Please try again.";
      SetLoading ""], inr tt).
Proof. reflexivity. Qed.

End MergeMore.

(** ** The prompt text on the canvas *)

Module LayoutFacts.
Import Wrap WrapFacts Layout.
Local Open Scope Q_scope.

Lemma fillLines_lookup lines context cx cy idx f :
  fillLines lines context cx cy !! idx = Some f ->
  exists line,
    lines !! idx = Some line
    /\ ft_line f = line
    /\ ft_x f = cx - context line / 2
    /\ ft_y f = cy - inject_Z (Z.of_nat (List.length lines)) * 18
                + inject_Z (Z.of_nat idx) * 32.
Proof.
  unfold fillLines. rewrite list_lookup_imap.
  destruct (lines !! idx) as [line|] eqn:E; [|discriminate].
  cbn. intros [= <-]. exists line. repeat split; reflexivity.
Qed.

Lemma wrapText_length text maxWidth context :
  (List.length (wrapText text maxWidth context) <= 4)%nat.
Proof. rewrite WrapMore.wrapText_allLines, length_take. lia. Qed.

Lemma inject_nat_le (a b : nat) : (a <= b)%nat -> inject_Z (Z.of_nat a) <= inject_Z (Z.of_nat b).
Proof. intros H. rewrite <- Zle_Qle. lia. Qed.

(** X22: whatever the prompt, its text is drawn with at most four
    calls of [fillText], on baselines 32 pixels apart that all lie
    between 72 pixels above and 24 pixels below the centre of the
    canvas. *)
Theorem prompt_text_stays_near_the_centre
    (prompt : jsstring) (width height : Q) (context : Context) :
  (List.length (drawPromptText prompt width height context) <= 4)%nat
  /\ forall idx f,
       drawPromptText prompt width height context !! idx = Some f ->
       height / 2 - 72 <= ft_y f <= height / 2 + 24
       /\ (forall g, drawPromptText prompt width height context !! S idx = Some g ->
             ft_y g == ft_y f + 32).
Proof.
  unfold drawPromptText.
  pose proof (wrapText_length prompt (width * (8 # 10)) context) as Hlen.
  set (lines := wrapText prompt (width * (8 # 10)) context) in *.
  split.
  - unfold fillLines. rewrite length_imap. exact Hlen.
  - intros idx f Hf.
    destruct (fillLines_lookup _ _ _ _ _ _ Hf) as (line & Hline & _ & _ & Hy).
    apply lookup_lt_Some in Hline.
    pose proof (inject_nat_le (S idx) (List.length lines) Hline) as H1.
    pose proof (inject_nat_le (List.length lines) 4 Hlen) as H2.
    pose proof (inject_nat_le 0 idx (Nat.le_0_l idx)) as H3.
    rewrite Nat2Z.inj_succ in H1. unfold Z.succ in H1. rewrite inject_Z_plus in H1.
    change (inject_Z (Z.of_nat 4)) with 4 in H2.
    change (inject_Z (Z.of_nat 0)) with 0 in H3.
    change (inject_Z 1) with 1 in H1.
    split.
    + rewrite Hy. split; lra.
    + intros g Hg.
      destruct (fillLines_lookup _ _ _ _ _ _ Hg) as (line' & _ & _ & _ & Hy').
      rewrite Hy, Hy'.
      rewrite Nat2Z.inj_succ. unfold Z.succ. rewrite inject_Z_plus.
      change (inject_Z 1) with 1. lra.
Qed.


End LayoutFacts.

(** ** The envelope at all times and in short renders *)

Module EnvelopeMore.
Import Envelope EnvelopeFacts.
Local Open Scope Q_scope.

Lemma ratio_in_unit a b t : a < b -> a <= t <= b -> 0 <= (t - a) / (b - a) <= 1.
Proof.
  intros Hab [H1 H2]. split.
  - apply Qle_shift_div_l; lra.
  - apply Qle_shift_div_r; lra.
Qed.

Lemma lerp_between t0 v0 t1 v1 t lo hi :
  t0 < t1 -> t0 <= t <= t1 -> lo <= v0 <= hi -> lo <= v1 <= hi ->
  lo <= lerp t0 v0 t1 v1 t <= hi.
Proof.
  intros Ht Hin H0 H1. unfold lerp.
  pose proof (ratio_in_unit t0 t1 t Ht Hin) as Hr.
  set (r := (t - t0) / (t1 - t0)) in *.
  assert (E : v0 + (v1 - v0) * r == (1 - r) * v0 + r * v1) by ring.
  rewrite E.
  assert (0 <= (1 - r) * (v0 - lo)) by (apply Qmult_le_0_compat; lra).
  assert (0 <= r * (v1 - lo)) by (apply Qmult_le_0_compat; lra).
  assert (0 <= (1 - r) * (hi - v0)) by (apply Qmult_le_0_compat; lra).
  assert (0 <= r * (hi - v1)) by (apply Qmult_le_0_compat; lra).
  split; nra.
Qed.

(** X23: in a render longer than two seconds the master gain stays
    between 0 and its peak 0.8 at all times from the start on, and is 0
    from the end of the render on. *)
Theorem masterGain_stays_between_0_and_peak (d t : Q) :
  2 < d -> 0 <= t ->
  0 <= masterGain d t <= 8 # 10
  /\ (d <= t -> masterGain d t == 0).
Proof.
  intros Hd Ht. split; [|intros Hlate; now apply masterGain_after].
  destruct (Qlt_le_dec t 1) as [H1 | H1].
  - rewrite masterGain_first_ramp by assumption.
    apply lerp_between; lra.
  - destruct (Qlt_le_dec t (d - 1)) as [H2 | H2].
    + rewrite masterGain_second_ramp by assumption.
      apply lerp_between; lra.
    + destruct (Qlt_le_dec t d) as [H3 | H3].
      * rewrite masterGain_third_ramp by assumption.
        apply lerp_between; lra.
      * rewrite masterGain_after by assumption. lra.
Qed.

Lemma masterGain_stays_between_0_and_peak_8s :
  2 < 8 /\ 0 <= 9 # 2
  /\ 0 <= masterGain 8 (9 # 2) <= 8 # 10
  /\ (8 <= 9 # 2 -> masterGain 8 (9 # 2) == 0).
Proof.
  split; [reflexivity|]. split; [discriminate|].
  apply (masterGain_stays_between_0_and_peak 8 (9 # 2)); [reflexivity | discriminate].
Defined.

Lemma masterGainTimeline_short (d : Q) :
  1 < d -> d < 2 ->
  masterGainTimeline d
  = [ {| ev_kind := SetValue; ev_value := 0; ev_time := 0 |};
      {| ev_kind := LinearRamp; ev_value := 6 # 10; ev_time := d - 1 |};
      {| ev_kind := LinearRamp; ev_value := 8 # 10; ev_time := 1 |};
      {| ev_kind := LinearRamp; ev_value := 0; ev_time := d |} ].
Proof.
  intros Hd Hd'.
  unfold masterGainTimeline, linearRampToValueAtTime, setValueAtTime.
  cbn -[Qminus Qplus].
  repeat (match goal with
          | |- context [Qlt_le_dec ?a ?b] => destruct (Qlt_le_dec a b); cbn -[Qminus Qplus] in *
          end; try lra).
  reflexivity.
Qed.

(** X24: in a render between one and two seconds the third call
    ([seconds - 1]) names an earlier time than the second (1), so the
    envelope rises to 0.6 first and to its peak 0.8 at one second, then
    falls to 0 at the end: the four breakpoints keep their values, in
    another order. *)
Theorem short_render_reaches_the_peak_last (d : Q) :
  1 < d -> d < 2 ->
  masterGain d 0 == 0
  /\ masterGain d (d - 1) == 6 # 10
  /\ masterGain d 1 == 8 # 10
  /\ masterGain d d == 0
  /\ (forall t, d - 1 <= t <= 1 ->
        masterGain d t == lerp (d - 1) (6 # 10) 1 (8 # 10) t).
Proof.
  intros Hd Hd'.
  assert (Hseg : forall t, d - 1 <= t -> t < 1 ->
                  masterGain d t == lerp (d - 1) (6 # 10) 1 (8 # 10) t).
  { intros t Ha Hb. unfold masterGain. rewrite (masterGainTimeline_short d Hd Hd').
    unfold lerp. cbn -[Qminus Qplus Qmult Qdiv Qle_bool].
    split_time; try lra; reflexivity. }
  assert (H1 : masterGain d 1 == 8 # 10).
  { unfold masterGain. rewrite (masterGainTimeline_short d Hd Hd').
    cbn -[Qminus Qplus Qmult Qdiv Qle_bool].
    split_time; try lra. unfold Qdiv. ring. }
  repeat split.
  - unfold masterGain. rewrite (masterGainTimeline_short d Hd Hd').
    cbn -[Qminus Qplus Qmult Qdiv Qle_bool].
    split_time; try lra. unfold Qdiv. ring.
  - rewrite Hseg by lra. apply lerp_start.
  - exact H1.
  - unfold masterGain. rewrite (masterGainTimeline_short d Hd Hd').
    cbn -[Qminus Qplus Qmult Qdiv Qle_bool].
    split_time; try lra; reflexivity.
  - intros t [Ha Hb]. destruct (Qlt_le_dec t 1) as [Hlt | Hge]; [now apply Hseg|].
    assert (Ht : t == 1) by lra.
    assert (E : masterGain d t == 8 # 10).
    { unfold masterGain. rewrite (masterGainTimeline_short d Hd Hd').
      cbn -[Qminus Qplus Qmult Qdiv Qle_bool].
      split_time; try lra.
      rewrite Ht. field. lra. }
    rewrite E. unfold lerp. rewrite Ht. field. lra.
Qed.

Lemma short_render_reaches_the_peak_last_90s :
  1 < 3 # 2 /\ 3 # 2 < 2
  /\ masterGain (3 # 2) 0 == 0
  /\ masterGain (3 # 2) ((3 # 2) - 1) == 6 # 10
  /\ masterGain (3 # 2) 1 == 8 # 10
  /\ masterGain (3 # 2) (3 # 2) == 0
  /\ (forall t, (3 # 2) - 1 <= t <= 1 ->
        masterGain (3 # 2) t == lerp ((3 # 2) - 1) (6 # 10) 1 (8 # 10) t).
Proof.
  split; [reflexivity|]. split; [reflexivity|].
  apply (short_render_reaches_the_peak_last (3 # 2)); reflexivity.
Defined.

End EnvelopeMore.
